(** * fix-icons: replacing oversized heading icons in HTML files

    A shallow embedding of [fix-icons.py] and the properties of its
    per-file rewriting.

    Text is a list of characters.  The script only ever compares characters
    with ASCII literals, so a character is an [ascii] (a code point below
    256); a file holds the text that [read_text] returns and [write_text]
    stores.  The directory is a finite map from file names to texts, and a
    run threads it, the console and the list of [write_text] calls through
    the loop. *)

From Stdlib Require Import Ascii String DecimalString.
From stdpp Require Import base option list strings gmap.

Abbreviation str := (list ascii).

(** The double quote character. *)
Definition dq : ascii := "034".

(** A string literal as text. *)
Definition s (x : string) : str := list_ascii_of_string x.

(** ** The part of Python's [re] that the script uses *)

Module Re.

(** A pattern is a sequence of capture groups; a group is a sequence of
    nodes.  [NotChar c lo] is the greedy repeat [[^c]{lo,}], so
    [NotChar c 0] is [[^c]*]. *)
Inductive node :=
| Lit (l : str)
| NotChar (c : ascii) (lo : nat).

Definition regex := list (list node).

Fixpoint strip_prefix (l t : str) : option str :=
  match l, t with
  | [], _ => Some t
  | a :: l', b :: t' => if Ascii.eqb a b then strip_prefix l' t' else None
  | _ :: _, [] => None
  end.

(** Number of leading characters of [t] that differ from [c]. *)
Fixpoint run_length (c : ascii) (t : str) : nat :=
  match t with
  | a :: t' => if Ascii.eqb a c then 0 else S (run_length c t')
  | [] => 0
  end.

(** Greedy repeat with backtracking: the longest run first, then one
    character less at a time, never fewer than [lo]. *)
Fixpoint backtrack {A} (k : str → option A) (t : str) (lo n : nat) : option A :=
  if n <? lo then None
  else match k (drop n t) with
       | Some r => Some r
       | None => match n with
                 | 0 => None
                 | S n' => backtrack k t lo n'
                 end
       end.

Fixpoint m_nodes {A} (ns : list node) (t : str) (k : str → option A) : option A :=
  match ns with
  | [] => k t
  | Lit l :: ns' =>
      match strip_prefix l t with
      | Some t' => m_nodes ns' t' k
      | None => None
      end
  | NotChar c lo :: ns' =>
      backtrack (λ t', m_nodes ns' t' k) t lo (run_length c t)
  end.

Fixpoint m_groups {A} (gs : regex) (t : str) (k : list str → str → option A) : option A :=
  match gs with
  | [] => k [] t
  | g :: gs' =>
      m_nodes g t (λ t1,
        m_groups gs' t1 (λ caps rest, k (take (length t - length t1) t :: caps) rest))
  end.

(** A match anchored at the head of [t]: the captured groups 1, 2, ... and
    the text after the match. *)
Definition re_match (p : regex) (t : str) : option (list str * str) :=
  m_groups p t (λ caps rest, Some (caps, rest)).

(** [match.group(i)] for [i >= 1]. *)
Definition group (m : list str) (i : nat) : str := default [] (m !! (i - 1)).

(** The left-to-right scan shared by [re.sub] and [re.findall]: at each
    position outside a previous match the pattern is tried; a match is
    recorded and the scan resumes at its end ([skip] counts the characters
    of the current match still to pass).  A pattern that can match the empty
    string needs more of the engine than the script uses; here an empty
    match is recorded and the character kept. *)
Inductive piece :=
| Gap (c : ascii)
| Hit (m : list str).

Fixpoint scan (p : regex) (skip : nat) (t : str) : list piece :=
  match t with
  | [] => match skip, re_match p [] with
          | 0, Some (m, _) => [Hit m]
          | _, _ => []
          end
  | c :: t' =>
      match skip with
      | S k => scan p k t'
      | 0 =>
          match re_match p t with
          | Some (m, rest) =>
              if length rest <? length t
              then Hit m :: scan p (length t - length rest - 1) t'
              else Hit m :: Gap c :: scan p 0 t'
          | None => Gap c :: scan p 0 t'
          end
      end
  end.

Definition emit (repl : list str → str) (x : piece) : str :=
  match x with
  | Gap c => [c]
  | Hit m => repl m
  end.

Definition is_hit (x : piece) : bool :=
  match x with Hit _ => true | Gap _ => false end.

(** [re.subn(p, repl, t)]: the new text and the number of replacements. *)
Definition re_subn (p : regex) (repl : list str → str) (t : str) : str * nat :=
  let ps := scan p 0 t in
  (concat (map (emit repl) ps), length (filter is_hit ps)).

Definition re_sub (p : regex) (repl : list str → str) (t : str) : str :=
  fst (re_subn p repl t).

(** [re.findall(p, t)]: the groups of every match, in order. *)
Definition re_findall (p : regex) (t : str) : list (list str) :=
  omap (λ x, match x with Hit m => Some m | Gap _ => None end) (scan p 0 t).

End Re.

Import Re.

(** ** The script *)

Definition CHECKMARK : str :=
  s "M9 12.75L11.25 15 15 9.75M21 12a9 9 0 1 1-18 0 9 9 0 0 1 18 0z".
Definition ALERT : str :=
  s "M12 9v3.75m9-.75a9 9 0 1 1-18 0 9 9 0 0 1 18 0zm-9 3.75h.008v.008H12v-.008z".

(** [str.lower]: the ASCII capitals become small letters.  No other
    character of the model becomes an ASCII letter under [str.lower], so the
    test for the trigger words, which are ASCII, is the one of the script. *)
Definition lower_char (c : ascii) : ascii :=
  let n := nat_of_ascii c in
  if (65 <=? n) && (n <=? 90) then ascii_of_nat (n + 32) else c.

Definition lower (t : str) : str := map lower_char t.

(** [w in t]. *)
Fixpoint contains (w t : str) : bool :=
  match strip_prefix w t with
  | Some _ => true
  | None => match t with
            | [] => false
            | _ :: t' => contains w t'
            end
  end.

Definition trigger_words : list str :=
  [s "disadvantage"; s "challenge"; s "pitfall"; s "bottleneck"].

Definition replace_complex_icon (m : list str) : str :=
  let svg_start := group m 1 in
  let path_data := group m 2 in
  let svg_end := group m 3 in
  let new_path :=
    if existsb (λ word, contains word (lower svg_end)) trigger_words
    then ALERT else CHECKMARK in
  svg_start ++ new_path ++ svg_end.

(** The literal pieces of the pattern. *)
Definition H2SVG : str := s "<h2><svg".
Definition GTPATH : str := s "><path".
Definition DEQ : str := s "d=" ++ [dq].
Definition CLOSE : str := dq :: s " /></svg>".

(** The pattern of the script, writing Q for the double quote:
    [(<h2><svg[^>]*><path[^>]*d=Q)([^Q]{80,})(Q /></svg>)]. *)
Definition pattern : regex :=
  [ [Lit H2SVG; NotChar ">" 0; Lit GTPATH; NotChar ">" 0; Lit DEQ];
    [NotChar dq 80];
    [Lit CLOSE] ].

Arguments H2SVG : simpl never.
Arguments GTPATH : simpl never.
Arguments DEQ : simpl never.
Arguments CLOSE : simpl never.
Arguments CHECKMARK : simpl never.
Arguments ALERT : simpl never.
Arguments pattern : simpl never.

(** What the loop body does to the text of one file. *)
Definition fix_icons (content : str) : str :=
  re_sub pattern replace_complex_icon content.

Definition show_nat (n : nat) : string :=
  NilEmpty.string_of_uint (Nat.to_uint n).

(** The directory, the lines printed so far and the [write_text] calls made
    so far. *)
Record world := World {
  files : gmap string str;
  console : list string;
  writes : list (string * str)
}.

(** The two lines that the loop prints. *)
Definition fixed_line (changes : nat) (name : string) : string :=
  "Fixed " +:+ show_nat changes +:+ " complex icons in " +:+ name.

Definition unchanged_line (name : string) : string :=
  "No changes needed in " +:+ name.

(** One iteration of the loop, for the file called [name]; [None] is the
    uncaught exception of reading a file that is not there. *)
Definition process_file (name : string) (w : world) : option world :=
  match files w !! name with
  | None => None
  | Some original =>
      let content := fix_icons original in
      if decide (content ≠ original) then
        let changes := length (re_findall pattern original) in
        Some (World (<[name := content]> (files w))
                    (console w ++ [fixed_line changes name])
                    (writes w ++ [(name, content)]))
      else
        Some (World (files w)
                    (console w ++ [unchanged_line name])
                    (writes w))
  end.

(** The whole run over the files that [glob] yields, in the order it yields
    them. *)
Fixpoint run_loop (names : list string) (w : world) : option world :=
  match names with
  | [] => Some w
  | name :: names' =>
      match process_file name w with
      | Some w' => run_loop names' w'
      | None => None
      end
  end.

(** The script: the loop, then the last line. *)
Definition main (names : list string) (w : world) : option world :=
  match run_loop names w with
  | Some w' => Some (World (files w') (console w' ++ ["Done!"%string]) (writes w'))
  | None => None
  end.

(** ** What a match looks like *)

(** The words a node and a sequence of nodes accept. *)
Definition node_lang (n : node) (w : str) : Prop :=
  match n with
  | Lit l => w = l
  | NotChar c lo => (c ∉ w) ∧ (lo ≤ length w)
  end.

Fixpoint nodes_lang (ns : list node) (w : str) : Prop :=
  match ns with
  | [] => w = []
  | n :: ns' => ∃ w1 w2, w = w1 ++ w2 ∧ node_lang n w1 ∧ nodes_lang ns' w2
  end.

(** The first group of a match: the heading tag, the opening [svg] tag, the
    [path] tag up to the opening quote of its [d] attribute. *)
Definition icon_head (g1 : str) : Prop :=
  ∃ X Y, g1 = H2SVG ++ X ++ GTPATH ++ Y ++ DEQ ∧ (">"%char ∉ X) ∧ (">"%char ∉ Y).

(** The second group: the path data. *)
Definition icon_data (D : str) : Prop := (dq ∉ D) ∧ (80 ≤ length D).

(** [rewrites t t']: [t'] is [t] with the path data of some matches
    replaced by the checkmark and everything else kept. *)
Inductive rewrites : str → str → Prop :=
| rw_nil : rewrites [] []
| rw_gap c t t' : rewrites t t' → rewrites (c :: t) (c :: t')
| rw_hit g1 D t t' :
    icon_head g1 → icon_data D → rewrites t t' →
    rewrites (g1 ++ D ++ CLOSE ++ t) (g1 ++ CHECKMARK ++ CLOSE ++ t').

(** [clash a b]: [a] and [b] differ at a position that both have. *)
Fixpoint clash (a b : str) : bool :=
  match a, b with
  | x :: a', y :: b' => if Ascii.eqb x y then clash a' b' else true
  | _, _ => false
  end.

(** Every tail of [a] from offset [k0] on clashes with [b]. *)
Definition tails_clash (a b : str) (k0 : nat) : bool :=
  forallb (λ k, clash (drop k a) b) (seq k0 (length a - k0)).

(** ** Texts used in the statements *)

(** An icon with path data [data], written in the form of the pattern, after
    the text [before]: [before<svg><path d=Q data Q /></svg>]. *)
Definition icon_after (before data : str) : str :=
  before ++ s "<svg" ++ GTPATH ++ s " " ++ DEQ ++ data ++ CLOSE.

(** The icon right after the heading tag, with [n] characters of path
    data. *)
Definition icon (n : nat) : str := icon_after (s "<h2>") (replicate n "A"%char).

(** The same icon with a space between the heading tag and the [svg] tag. *)
Definition spaced_icon : str := icon_after (s "<h2> ") (replicate 85 "A"%char).

(** The file of the scenario, with [data] as its path data. *)
Definition a_html (data : str) : str :=
  s "<h2><svg x=" ++ [dq] ++ s "1" ++ [dq] ++ s "><path d=" ++ [dq] ++
  data ++ CLOSE ++ s "<span>Pitfall</span></h2>".

(** The pieces of a scan as text of the input and of the output. *)
Definition hit (x : piece) : option (list str) :=
  match x with Hit m => Some m | Gap _ => None end.

Definition piece_in (x : piece) : str :=
  match x with
  | Gap c => [c]
  | Hit m => group m 1 ++ group m 2 ++ group m 3
  end.

Definition kept (x : piece) (out : str) : Prop :=
  match x with
  | Gap c => out = [c]
  | Hit m => ∃ new, (new = CHECKMARK ∨ new = ALERT) ∧
                    out = group m 1 ++ new ++ group m 3
  end.

(** The worlds of the scenario: one file [a.html], before and after a run. *)
Definition world0 : world :=
  World {[ "a.html"%string := a_html (replicate 85 "A"%char) ]} [] [].

Definition world1 : world :=
  World {[ "a.html"%string := a_html CHECKMARK ]}
        ["Fixed 1 complex icons in a.html"%string; "Done!"%string]
        [("a.html"%string, a_html CHECKMARK)].

(** A directory with two files of equal text and one without an icon. *)
Definition world2 : world :=
  World {[ "a.html"%string := icon 90;
           "b.html"%string := icon 90;
           "c.html"%string := s "<h2>Plain</h2>" ]} [] [].

(** A text that the script leaves alone: no match and no change. *)
Definition untouched (t : str) : Prop :=
  re_findall pattern t = [] ∧ fix_icons t = t.

(** A heading with an icon, written with the given heading tag, attribute
    texts, opening of the [d] attribute, path data and closing sequence. *)
Definition heading_icon (h2 X Y op D cl : str) : str :=
  h2 ++ s "<svg" ++ X ++ GTPATH ++ Y ++ op ++ D ++ cl.

(** The attribute text [ class=Q x Q] of the example heading tag. *)
Definition class_x : str := s " class=" ++ [dq] ++ s "x" ++ [dq].



(** [l] is one of the two lines that the loop can print for [name]. *)
Definition line_of (name l : string) : Prop :=
  l = unchanged_line name ∨ ∃ k, 1 ≤ k ∧ l = fixed_line k name.

(** The shortest text with a match: no attributes, 80 characters of data. *)
Definition least_icon : str :=
  H2SVG ++ GTPATH ++ DEQ ++ replicate 80 "A"%char ++ CLOSE.


(** Every listed file holds a text that the rewriting leaves as it is. *)
Definition settled (names : list string) (m : gmap string str) : Prop :=
  ∀ n, n ∈ names → ∃ c, m !! n = Some c ∧ fix_icons c = c.

(* ------------------------------------------------------------------ *)
(** ** The matching engine *)

Section Engine.
Context {A : Type}.
Implicit Types (k : str → option A) (t w l : str).

Lemma strip_prefix_Some l t t' : strip_prefix l t = Some t' ↔ t = l ++ t'.
Proof.
  revert t. induction l as [|a l IH]; intros [|b t]; simpl.
  - split; congruence.
  - split; congruence.
  - split; [done|discriminate].
  - destruct (Ascii.eqb_spec a b) as [->|Hne].
    + rewrite IH. split; congruence.
    + split; [done|]. intros [= ? _]. done.
Qed.

Lemma strip_prefix_app l t : strip_prefix l (l ++ t) = Some t.
Proof. by apply strip_prefix_Some. Qed.

Lemma run_length_le c t : run_length c t ≤ length t.
Proof.
  induction t as [|a t IH]; simpl; [lia|].
  destruct (Ascii.eqb a c); lia.
Qed.

Lemma run_length_take c t j : j ≤ run_length c t → c ∉ take j t.
Proof.
  revert j. induction t as [|a t IH]; intros j Hj; simpl in *.
  - rewrite take_nil. apply not_elem_of_nil.
  - destruct j as [|j]; [apply not_elem_of_nil|].
    destruct (Ascii.eqb_spec a c) as [->|Hne]; [lia|].
    simpl. apply not_elem_of_cons. split; [done|]. apply IH. lia.
Qed.

Lemma run_length_app c w t : c ∉ w → length w ≤ run_length c (w ++ t).
Proof.
  induction w as [|a w IH]; simpl; [lia|].
  intros [Hne Hw]%not_elem_of_cons.
  destruct (Ascii.eqb_spec a c) as [->|_]; [done|]. specialize (IH Hw). lia.
Qed.

Lemma backtrack_sound k t lo n r :
  backtrack k t lo n = Some r → ∃ j, lo ≤ j ≤ n ∧ k (drop j t) = Some r.
Proof.
  induction n as [|n IH]; simpl.
  - destruct (Nat.ltb_spec 0 lo); [done|].
    destruct (k (drop 0 t)) eqn:Hk; [|done].
    intros [= ->]. exists 0. split; [lia|done].
  - destruct (Nat.ltb_spec (S n) lo); [done|].
    destruct (k (drop (S n) t)) eqn:Hk.
    + intros [= ->]. exists (S n). split; [lia|done].
    + intros Hb. destruct (Nat.eq_dec (S n) lo) as [Heq|Hne].
      * destruct n as [|n']; simpl in Hb.
        -- destruct (Nat.ltb_spec 0 lo); [done|lia].
        -- destruct (Nat.ltb_spec (S n') lo); [done|lia].
      * destruct (IH Hb) as (j & Hj & Hkj). exists j. split; [lia|done].
Qed.

Lemma backtrack_complete k t lo n j :
  lo ≤ j ≤ n → is_Some (k (drop j t)) → is_Some (backtrack k t lo n).
Proof.
  intros Hj Hk. induction n as [|n IH]; simpl.
  - assert (j = 0) as -> by lia.
    destruct (Nat.ltb_spec 0 lo); [lia|].
    destruct (k (drop 0 t)); [done|]. by destruct Hk.
  - destruct (Nat.ltb_spec (S n) lo); [lia|].
    destruct (k (drop (S n) t)) eqn:Hd; [done|].
    destruct (Nat.eq_dec j (S n)) as [->|Hne].
    + rewrite Hd in Hk. by destruct Hk.
    + apply IH. lia.
Qed.

Lemma m_nodes_sound ns t k r :
  m_nodes ns t k = Some r →
  ∃ w t', t = w ++ t' ∧ nodes_lang ns w ∧ k t' = Some r.
Proof.
  revert t. induction ns as [|[l|c lo] ns IH]; intros t; simpl.
  - intros Hk. by exists [], t.
  - destruct (strip_prefix l t) as [t1|] eqn:Hs; [|done].
    apply strip_prefix_Some in Hs as ->.
    intros (w & t' & -> & Hw & Hk)%IH.
    exists (l ++ w), t'. split; [by rewrite (assoc_L (++))|].
    split; [|done]. by exists l, w.
  - intros (j & Hj & (w & t' & Hd & Hw & Hk)%IH)%backtrack_sound.
    exists (take j t ++ w), t'.
    split; [by rewrite <- (assoc_L (++)), <- Hd, take_drop|].
    split; [|done]. exists (take j t), w. split; [done|]. split; [|done].
    split; [apply run_length_take; lia|].
    pose proof (run_length_le c t). rewrite length_take. lia.
Qed.

Lemma m_nodes_complete ns w t' k :
  nodes_lang ns w → is_Some (k t') → is_Some (m_nodes ns (w ++ t') k).
Proof.
  revert w. induction ns as [|[l|c lo] ns IH]; intros w; simpl.
  - by intros ->.
  - intros (w1 & w2 & -> & -> & Hw2) Hk.
    rewrite <- (assoc_L (++)), strip_prefix_app. by apply IH.
  - intros (w1 & w2 & -> & [Hc Hlo] & Hw2) Hk.
    apply (backtrack_complete _ _ _ _ (length w1)).
    + split; [done|]. rewrite <- (assoc_L (++)). by apply run_length_app.
    + rewrite <- (assoc_L (++)), drop_app_length. by apply IH.
Qed.
End Engine.

Lemma m_groups_sound {A} gs t (k : list str → str → option A) r :
  m_groups gs t k = Some r →
  ∃ ws rest, t = concat ws ++ rest ∧ Forall2 nodes_lang gs ws ∧ k ws rest = Some r.
Proof.
  revert t k. induction gs as [|g gs IH]; intros t k; simpl.
  - intros Hk. exists [], t. by repeat split.
  - intros (w & t1 & -> & Hw & (ws & rest & -> & Hws & Hk)%IH)%m_nodes_sound.
    exists (w :: ws), rest. simpl. split; [by rewrite (assoc_L (++))|].
    split; [by constructor|].
    rewrite length_app, Nat.add_sub, take_app_length in Hk. done.
Qed.

Lemma m_groups_complete {A} gs ws rest (k : list str → str → option A) :
  Forall2 nodes_lang gs ws → (∀ caps, is_Some (k caps rest)) →
  is_Some (m_groups gs (concat ws ++ rest) k).
Proof.
  intros Hws. revert k. induction Hws as [|g w gs ws Hw Hws IH]; intros k Hk; simpl.
  - done.
  - rewrite <- (assoc_L (++)). apply m_nodes_complete; [done|].
    apply IH. intros caps. apply Hk.
Qed.

(* ------------------------------------------------------------------ *)
(** ** Matches of the script's pattern *)

Lemma concat3 (a b c r : str) : concat [a; b; c] ++ r = a ++ b ++ c ++ r.
Proof. simpl. by rewrite app_nil_r, <- !(assoc_L (++)). Qed.

Lemma pattern_lang ws :
  Forall2 nodes_lang pattern ws ↔
  ∃ g1 D, ws = [g1; D; CLOSE] ∧ icon_head g1 ∧ icon_data D.
Proof.
  split.
  - intros H. unfold pattern in H.
    apply Forall2_cons_inv_l in H as (g1 & ws1 & H1 & H & ->).
    apply Forall2_cons_inv_l in H as (D & ws2 & H2 & H & ->).
    apply Forall2_cons_inv_l in H as (g3 & ws3 & H3 & H & ->).
    apply Forall2_nil_inv_l in H as ->.
    simpl in H1, H2, H3.
    destruct H1 as (h & r1 & -> & -> & X & r2 & -> & [HX _] & gp & r3 & -> & ->
                    & Y & r4 & -> & [HY _] & de & r5 & -> & -> & ->).
    destruct H2 as (D' & r6 & -> & HD & ->).
    destruct H3 as (c & r7 & -> & -> & ->).
    rewrite !app_nil_r. exists (H2SVG ++ X ++ GTPATH ++ Y ++ DEQ), D'.
    split; [done|]. split; [by exists X, Y|done].
  - intros (g1 & D & -> & (X & Y & -> & HX & HY) & HD).
    repeat constructor; simpl.
    + exists H2SVG, (X ++ GTPATH ++ Y ++ DEQ). split; [done|]. split; [done|].
      exists X, (GTPATH ++ Y ++ DEQ). split; [done|]. split; [split; [done|lia]|].
      exists GTPATH, (Y ++ DEQ). split; [done|]. split; [done|].
      exists Y, DEQ. split; [done|]. split; [split; [done|lia]|].
      exists DEQ, []. by rewrite app_nil_r.
    + exists D, []. by rewrite app_nil_r.
    + exists CLOSE, []. by rewrite app_nil_r.
Qed.

Lemma re_match_sound t m rest :
  re_match pattern t = Some (m, rest) →
  ∃ g1 D, m = [g1; D; CLOSE] ∧ t = g1 ++ D ++ CLOSE ++ rest ∧
          icon_head g1 ∧ icon_data D.
Proof.
  intros (ws & rest' & -> & Hws & [= <- <-])%m_groups_sound.
  apply pattern_lang in Hws as (g1 & D & -> & Hg & HD).
  exists g1, D. by rewrite concat3.
Qed.

Lemma re_match_complete g1 D rest :
  icon_head g1 → icon_data D →
  is_Some (re_match pattern (g1 ++ D ++ CLOSE ++ rest)).
Proof.
  intros Hg HD.
  assert (g1 ++ D ++ CLOSE ++ rest = concat [g1; D; CLOSE] ++ rest) as ->.
  { by rewrite concat3. }
  apply m_groups_complete; [|done].
  apply pattern_lang. by exists g1, D.
Qed.

Lemma re_match_head t :
  strip_prefix H2SVG t = None → re_match pattern t = None.
Proof.
  intros Hs. unfold re_match, pattern. cbn [m_groups m_nodes]. by rewrite Hs.
Qed.

Lemma re_match_nil : re_match pattern [] = None.
Proof. reflexivity. Qed.

Lemma re_match_shorter t m rest :
  re_match pattern t = Some (m, rest) → length rest < length t.
Proof.
  intros (g1 & D & _ & -> & _ & _)%re_match_sound.
  rewrite !length_app. change (length CLOSE) with 10. lia.
Qed.

(** ** The scan *)

Lemma scan_skip p w t : scan p (length w) (w ++ t) = scan p 0 t.
Proof. induction w as [|c w IH]; [done|]. simpl. apply IH. Qed.

Lemma scan_nil : scan pattern 0 [] = [].
Proof. reflexivity. Qed.

Lemma scan_gap c t :
  re_match pattern (c :: t) = None →
  scan pattern 0 (c :: t) = Gap c :: scan pattern 0 t.
Proof. intros H. cbn [scan]. by rewrite H. Qed.

Lemma scan_hit t m rest :
  re_match pattern t = Some (m, rest) →
  scan pattern 0 t = Hit m :: scan pattern 0 rest.
Proof.
  intros H. pose proof (re_match_shorter _ _ _ H) as Hlen.
  pose proof H as (g1 & D & _ & Ht & _ & _)%re_match_sound.
  destruct t as [|c t']; [simpl in Hlen; lia|].
  cbn [scan]. rewrite H.
  destruct (Nat.ltb_spec (length rest) (length (c :: t'))); [|lia].
  f_equal.
  assert (t' = take (length t' - length rest) t' ++ rest) as Ht'.
  { rewrite <- (take_drop (length t' - length rest) t') at 1. f_equal.
    assert (drop (length (c :: t') - length rest) (c :: t') = rest) as Hd.
    { rewrite Ht at 2. rewrite !(assoc_L (++)), drop_app_length'; [done|].
      rewrite Ht, !length_app. lia. }
    simpl in Hlen. replace (length (c :: t') - length rest)
      with (S (length t' - length rest)) in Hd by (simpl; lia).
    done. }
  rewrite Ht' at 2.
  replace (length (c :: t') - length rest - 1)
    with (length (take (length t' - length rest) t')).
  - apply scan_skip.
  - rewrite length_take. simpl. lia.
Qed.

(** The unfolding equations of the per-file rewriting. *)

Lemma no_trigger_in_close :
  existsb (λ word, contains word (lower CLOSE)) trigger_words = false.
Proof. reflexivity. Qed.

Lemma replace_complex_icon_groups g1 D :
  replace_complex_icon [g1; D; CLOSE] = g1 ++ CHECKMARK ++ CLOSE.
Proof.
  change (replace_complex_icon [g1; D; CLOSE])
    with (g1 ++ (if existsb (λ word, contains word (lower CLOSE)) trigger_words
                 then ALERT else CHECKMARK) ++ CLOSE).
  by rewrite no_trigger_in_close.
Qed.

Lemma fix_icons_nil : fix_icons [] = [].
Proof. reflexivity. Qed.

Lemma fix_icons_gap c t :
  re_match pattern (c :: t) = None → fix_icons (c :: t) = c :: fix_icons t.
Proof.
  intros H. unfold fix_icons, re_sub, re_subn. cbn [fst].
  by rewrite (scan_gap _ _ H).
Qed.

Lemma fix_icons_hit g1 D rest :
  re_match pattern (g1 ++ D ++ CLOSE ++ rest) = Some ([g1; D; CLOSE], rest) →
  fix_icons (g1 ++ D ++ CLOSE ++ rest) = g1 ++ CHECKMARK ++ CLOSE ++ fix_icons rest.
Proof.
  intros H. unfold fix_icons, re_sub, re_subn. cbn [fst].
  rewrite (scan_hit _ _ _ H). cbn [map concat emit].
  by rewrite replace_complex_icon_groups, <- !(assoc_L (++)).
Qed.

(* ------------------------------------------------------------------ *)
(** ** Where the literal pieces of the pattern can and cannot occur *)

Lemma clash_app a b u v : clash a b = true → a ++ u ≠ b ++ v.
Proof.
  revert b. induction a as [|x a IH]; intros [|y b]; simpl; try done.
  destruct (Ascii.eqb_spec x y) as [->|Hne].
  - intros Hc [= He]. by eapply IH.
  - intros _ [= ? _]. done.
Qed.

Lemma tails_clash_app a b k0 P a2 u v :
  tails_clash a b k0 = true → a = P ++ a2 → k0 ≤ length P → a2 ≠ [] →
  a2 ++ u ≠ b ++ v.
Proof.
  intros Hall -> Hk Hne. apply clash_app.
  unfold tails_clash in Hall. rewrite forallb_forall in Hall.
  specialize (Hall (length P)). rewrite drop_app_length in Hall.
  apply Hall. apply list_elem_of_In, elem_of_seq.
  rewrite length_app. destruct a2; [done|]. simpl. lia.
Qed.

Ltac lits := unfold H2SVG, GTPATH, DEQ, CLOSE, CHECKMARK, s in *.

(** A run without [>] followed by [><path] does not begin with [<h2><svg]. *)
Lemma gt_free_then_path V W T :
  ">"%char ∉ V → V ++ GTPATH ++ W ≠ H2SVG ++ T.
Proof.
  intros HV He. lits.
  destruct V as [|x0 [|x1 [|x2 [|x3 V]]]]; simplify_eq/=.
  apply HV. set_solver.
Qed.

(** Nor does a run without [>] followed by the opening of the [d] attribute. *)
Lemma gt_free_then_deq V W T :
  ">"%char ∉ V → V ++ DEQ ++ W ≠ H2SVG ++ T.
Proof.
  intros HV He. lits.
  destruct V as [|x0 [|x1 [|x2 [|x3 V]]]]; simplify_eq/=.
  apply HV. set_solver.
Qed.

(** After a quote inside an attribute run of a rewritten icon, the closing
    sequence cannot follow. *)
Lemma no_close_in_attrs P0 B D2 u Z :
  dq ∉ P0 → ">"%char ∉ B → dq ∉ D2 →
  D2 ++ CLOSE ++ u ≠ P0 ++ B ++ DEQ ++ CHECKMARK ++ CLOSE ++ Z.
Proof.
  intros HP HB HD He.
  destruct (decide (dq ∈ B)) as [Hin|Hout].
  - apply list_elem_of_split_l in Hin as (A & B' & -> & HA).
    rewrite <- (assoc_L (++) A), (assoc_L (++) P0 A) in He.
    change (CLOSE ++ u) with (dq :: (s " /></svg>" ++ u)) in He.
    cbn [app] in He.
    apply not_elem_of_app_cons_inv_l in He as (_ & _ & He).
    2:{ apply not_elem_of_app. done. }
    2:{ done. }
    apply not_elem_of_app in HB as [_ HB]. apply not_elem_of_cons in HB as [_ HB].
    lits. destruct B' as [|b0 [|b1 [|b2 B']]]; simplify_eq/=.
    apply HB. set_solver.
  - change DEQ with (s "d=" ++ [dq]) in He.
    change (CLOSE ++ u) with (dq :: (s " /></svg>" ++ u)) in He.
    rewrite <- (assoc_L (++) (s "d=")), !(assoc_L (++) _ _ ([dq] ++ _)) in He.
    cbn [app] in He.
    apply not_elem_of_app_cons_inv_l in He as (_ & _ & He).
    2:{ rewrite !not_elem_of_app. split; [done|]. split; [done|].
        unfold s. simpl. rewrite !not_elem_of_cons.
        repeat split; try done. apply not_elem_of_nil. }
    2:{ done. }
    lits. simplify_eq/=.
Qed.

Lemma no_close_in_icon X0 Y0 D2 u Z :
  ">"%char ∉ X0 → ">"%char ∉ Y0 → dq ∉ D2 →
  D2 ++ CLOSE ++ u ≠
  H2SVG ++ X0 ++ GTPATH ++ Y0 ++ DEQ ++ CHECKMARK ++ CLOSE ++ Z.
Proof.
  intros HX HY HD He.
  assert (dq ∉ H2SVG) as HH.
  { unfold H2SVG, s. simpl. rewrite !not_elem_of_cons.
    repeat split; try done. apply not_elem_of_nil. }
  assert (dq ∉ GTPATH) as HG.
  { unfold GTPATH, s. simpl. rewrite !not_elem_of_cons.
    repeat split; try done. apply not_elem_of_nil. }
  destruct (decide (dq ∈ X0)) as [Hin|Hout].
  - apply list_elem_of_split_l in Hin as (A & B' & -> & HA).
    rewrite <- (assoc_L (++) A), (assoc_L (++) H2SVG A) in He.
    change (CLOSE ++ u) with (dq :: (s " /></svg>" ++ u)) in He.
    cbn [app] in He.
    apply not_elem_of_app_cons_inv_l in He as (_ & _ & He).
    2:{ apply not_elem_of_app. done. }
    2:{ done. }
    apply not_elem_of_app in HX as [_ HX]. apply not_elem_of_cons in HX as [_ HX].
    lits. destruct B' as [|b0 [|b1 [|b2 B']]]; simplify_eq/=.
    apply HX. set_solver.
  - rewrite !(assoc_L (++) _ _ (Y0 ++ _)) in He.
    revert He. apply no_close_in_attrs; [|done|done].
    rewrite !not_elem_of_app. done.
Qed.

(** A proper, non-empty tail of a word of the pattern's shape that begins
    like a match is a tail of the path data followed by the closing
    sequence. *)
Lemma tail_start P S X Y D u T :
  P ≠ [] → ">"%char ∉ X → ">"%char ∉ Y →
  P ++ S = H2SVG ++ X ++ GTPATH ++ Y ++ DEQ ++ D ++ CLOSE →
  S ≠ [] → S ++ u = H2SVG ++ T →
  ∃ D1 D2, D = D1 ++ D2 ∧ S = D2 ++ CLOSE.
Proof.
  intros HP HX HY He HS Hu.
  apply app_eq_inv in He as [(k & -> & He)|(k & Hk & ->)]; last first.
  { exfalso. destruct k as [|c k].
    - revert Hu. rewrite app_nil_l, <- !(assoc_L (++)). by apply gt_free_then_path.
    - revert Hu. rewrite <- (assoc_L (++)).
      apply (tails_clash_app H2SVG H2SVG 1 P); [done|done| |done].
      destruct P; [done|simpl; lia]. }
  apply app_eq_inv in He as [(k1 & -> & ->)|(k1 & -> & He)].
  { exfalso. revert Hu. rewrite <- !(assoc_L (++)). apply gt_free_then_path.
    apply not_elem_of_app in HX. tauto. }
  apply app_eq_inv in He as [(k2 & Hk & ->)|(k2 & -> & He)].
  { exfalso. destruct k2 as [|c k2].
    - revert Hu. rewrite app_nil_l, <- !(assoc_L (++)). by apply gt_free_then_deq.
    - revert Hu. rewrite <- (assoc_L (++)).
      apply (tails_clash_app GTPATH H2SVG 0 k1); [done|done|lia|done]. }
  apply app_eq_inv in He as [(k3 & -> & ->)|(k3 & -> & He)].
  { exfalso. revert Hu. rewrite <- !(assoc_L (++)). apply gt_free_then_deq.
    apply not_elem_of_app in HY. tauto. }
  apply app_eq_inv in He as [(k4 & Hk & ->)|(k4 & -> & He)].
  { destruct k4 as [|c k4].
    - by exists [], D.
    - exfalso. revert Hu. rewrite <- (assoc_L (++)).
      apply (tails_clash_app DEQ H2SVG 0 k3); [done|done|lia|done]. }
  apply app_eq_inv in He as [(k5 & -> & ->)|(k5 & -> & He)].
  { by exists k4, k5. }
  exfalso. revert Hu.
  apply (tails_clash_app CLOSE H2SVG 0 k5); [done|done|lia|done].
Qed.

(** A match begun earlier cannot run into a rewritten icon. *)
Lemma mid_match_stops P S X Y D g1 Z :
  P ≠ [] → ">"%char ∉ X → ">"%char ∉ Y → dq ∉ D →
  P ++ S = H2SVG ++ X ++ GTPATH ++ Y ++ DEQ ++ D ++ CLOSE →
  icon_head g1 → S `prefix_of` g1 ++ CHECKMARK ++ CLOSE ++ Z → S = [].
Proof.
  intros HP HX HY HD He (X0 & Y0 & -> & HX0 & HY0) [u Hu].
  destruct (decide (S = [])) as [|HS]; [done|exfalso].
  rewrite <- !(assoc_L (++)) in Hu. symmetry in Hu.
  destruct (tail_start _ _ _ _ _ _ _ HP HX HY He HS Hu) as (D1 & D2 & -> & ->).
  rewrite <- (assoc_L (++)) in Hu. revert Hu.
  apply no_close_in_icon; [done|done|].
  apply not_elem_of_app in HD. tauto.
Qed.

Lemma dq_not_in_CHECKMARK : dq ∉ CHECKMARK.
Proof. apply (bool_decide_unpack _). by vm_compute. Qed.

Lemma length_CHECKMARK : length CHECKMARK = 62.
Proof. reflexivity. Qed.

(** The checkmark is too short to be matched as path data again. *)
Lemma checkmark_not_data D u Z :
  icon_data D → D ++ CLOSE ++ u ≠ CHECKMARK ++ CLOSE ++ Z.
Proof.
  intros [HD Hlen] He.
  change CLOSE with (dq :: s " /></svg>") in He. cbn [app] in He.
  apply not_elem_of_app_cons_inv_l in He as (-> & _ & _);
    [|apply dq_not_in_CHECKMARK|done].
  rewrite length_CHECKMARK in Hlen. lia.
Qed.

(** A rewritten icon is not matched again at its own head. *)
Lemma rewritten_icon_no_match g1 Z :
  icon_head g1 → re_match pattern (g1 ++ CHECKMARK ++ CLOSE ++ Z) = None.
Proof.
  intros (X0 & Y0 & -> & HX0 & HY0).
  destruct (re_match pattern _) as [[m rest]|] eqn:Hm; [exfalso|done].
  apply re_match_sound in Hm
    as (g1' & D & _ & He & (X & Y & -> & HX & HY) & HD).
  rewrite <- !(assoc_L (++)) in He. apply app_inv_head in He.
  change GTPATH with (">"%char :: s "<path") in He. cbn [app] in He.
  apply not_elem_of_app_cons_inv_l in He as (-> & _ & He); [|done|done].
  apply app_inv_head in He.
  apply app_eq_inv in He as [(K & -> & He)|(K & -> & He)].
  - apply not_elem_of_app in HY0 as [_ HK].
    destruct K as [|k0 [|k1 [|k2 K]]].
    + cbn [app] in He. apply app_inv_head in He. revert He.
      by apply checkmark_not_data.
    + unfold DEQ, s in He. simplify_eq/=.
    + unfold DEQ, s in He. simplify_eq/=.
    + unfold DEQ at 1, s in He. cbn [app list_ascii_of_string] in He.
      injection He as _ _ _ He. revert He.
      apply (no_close_in_attrs [] K D rest Z); [apply not_elem_of_nil| |apply HD].
      rewrite !not_elem_of_cons in HK. tauto.
  - apply not_elem_of_app in HY as [_ HK].
    destruct K as [|k0 K].
    + cbn [app] in He. apply app_inv_head in He. symmetry in He. revert He.
      by apply checkmark_not_data.
    + set (L := DEQ ++ CHECKMARK ++ dq :: s " /").
      change (DEQ ++ CHECKMARK ++ CLOSE ++ Z)
        with (L ++ ">"%char :: (s "</svg>" ++ Z)) in He.
      apply app_eq_inv in He as [(k' & HL & He)|(k' & HL & He)].
      * revert He.
        change (k' ++ ">"%char :: s "</svg>" ++ Z)
          with (k' ++ [">"%char] ++ (s "</svg>" ++ Z)).
        rewrite (assoc_L (++) k'). intros He. symmetry in He. revert He.
        apply (tails_clash_app (L ++ [">"%char]) DEQ 1 (k0 :: K)).
        -- by vm_compute.
        -- by rewrite HL, <- (assoc_L (++)).
        -- simpl. lia.
        -- by destruct k'.
      * destruct k' as [|c k'].
        -- unfold DEQ, s in He. simplify_eq/=.
        -- injection He as <- _. apply HK. rewrite HL. set_solver.
Qed.

(* ------------------------------------------------------------------ *)
(** ** The rewriting leaves nothing to rewrite *)

Lemma fix_icons_rewrites t : rewrites t (fix_icons t).
Proof.
  remember (length t) as n eqn:Hn. revert t Hn.
  induction n as [n IH] using lt_wf_ind. intros t ->.
  destruct t as [|c t]; [rewrite fix_icons_nil; constructor|].
  destruct (re_match pattern (c :: t)) as [[m rest]|] eqn:Hm.
  - pose proof (re_match_shorter _ _ _ Hm) as Hlen.
    pose proof Hm as (g1 & D & -> & He & Hg & HD)%re_match_sound.
    rewrite He in Hm |- *. rewrite (fix_icons_hit _ _ _ Hm).
    apply rw_hit; [done|done|]. by eapply IH.
  - rewrite (fix_icons_gap _ _ Hm). apply rw_gap.
    eapply IH; [|done]. simpl. lia.
Qed.

Lemma scan_gaps L Z :
  (∀ P S, L = P ++ S → S ≠ [] → re_match pattern (S ++ Z) = None) →
  scan pattern 0 (L ++ Z) = map Gap L ++ scan pattern 0 Z.
Proof.
  induction L as [|c L IH]; intros HL; [done|].
  cbn [app map]. rewrite scan_gap.
  - f_equal. apply IH. intros P S -> HS. by apply (HL (c :: P)).
  - by apply (HL [] (c :: L)).
Qed.

Lemma rewritten_icon_scan g1 Z :
  icon_head g1 →
  scan pattern 0 ((g1 ++ CHECKMARK ++ CLOSE) ++ Z) =
  map Gap (g1 ++ CHECKMARK ++ CLOSE) ++ scan pattern 0 Z.
Proof.
  intros Hg. apply scan_gaps. intros P S He HS.
  destruct P as [|p P].
  - simpl in He. subst S. rewrite <- !(assoc_L (++)).
    by apply rewritten_icon_no_match.
  - apply re_match_head.
    destruct (strip_prefix H2SVG (S ++ Z)) as [T|] eqn:Hs; [exfalso|done].
    apply strip_prefix_Some in Hs.
    destruct Hg as (X0 & Y0 & -> & HX0 & HY0).
    rewrite <- !(assoc_L (++)) in He. symmetry in He.
    destruct (tail_start (p :: P) S X0 Y0 CHECKMARK Z T) as (D1 & D2 & HD & ->);
      [done..|].
    revert Hs.
    apply (tails_clash_app (CHECKMARK ++ CLOSE) H2SVG 0 D1).
    + by vm_compute.
    + by rewrite HD, <- (assoc_L (++)).
    + lia.
    + done.
Qed.

Lemma map_emit_gap repl (L : str) : concat (map (emit repl) (map Gap L)) = L.
Proof. induction L as [|c L IH]; [done|]. simpl. by rewrite IH. Qed.

Lemma fix_icons_rewritten_icon g1 Z :
  icon_head g1 →
  fix_icons (g1 ++ CHECKMARK ++ CLOSE ++ Z) =
  g1 ++ CHECKMARK ++ CLOSE ++ fix_icons Z.
Proof.
  intros Hg. unfold fix_icons, re_sub, re_subn. cbn [fst].
  assert (g1 ++ CHECKMARK ++ CLOSE ++ Z = (g1 ++ CHECKMARK ++ CLOSE) ++ Z) as ->.
  { by rewrite <- !(assoc_L (++)). }
  rewrite rewritten_icon_scan by done.
  by rewrite map_app, concat_app, map_emit_gap, <- !(assoc_L (++)).
Qed.

Lemma no_new_match_tail l l' :
  rewrites l l' → ∀ P S X Y D,
  P ≠ [] → ">"%char ∉ X → ">"%char ∉ Y → dq ∉ D →
  P ++ S = H2SVG ++ X ++ GTPATH ++ Y ++ DEQ ++ D ++ CLOSE →
  S `prefix_of` l' → S `prefix_of` l.
Proof.
  induction 1 as [|c t t' Hr IH|g1 D0 t t' Hg HD0 Hr IH];
    intros P S X Y D HP HX HY HD He Hpre.
  - done.
  - destruct S as [|c' S]; [apply prefix_nil|].
    apply prefix_cons_inv_1 in Hpre as Hc. subst c'.
    apply prefix_cons_inv_2 in Hpre.
    apply prefix_cons. apply (IH (P ++ [c]) S X Y D); [|done..| |done].
    + by destruct P.
    + by rewrite <- (assoc_L (++)).
  - rewrite (mid_match_stops P S X Y D g1 t'); [apply prefix_nil|done..].
Qed.

Lemma no_new_match c l l' :
  rewrites l l' → re_match pattern (c :: l) = None →
  re_match pattern (c :: l') = None.
Proof.
  intros Hr Hnone.
  destruct (re_match pattern (c :: l')) as [[m rest]|] eqn:Hm; [exfalso|done].
  apply re_match_sound in Hm as (g1 & D & _ & He & Hg & HD).
  pose proof Hg as (X & Y & Hg1 & HX & HY).
  assert (∃ N, g1 ++ D ++ CLOSE = c :: N) as [N HN].
  { rewrite Hg1. unfold H2SVG, s in *. simplify_eq/=. eauto. }
  assert (g1 ++ D ++ CLOSE ++ rest = (g1 ++ D ++ CLOSE) ++ rest) as Ha.
  { by rewrite <- !(assoc_L (++)). }
  rewrite Ha, HN in He. injection He as He.
  assert (N `prefix_of` l) as [rest' ->].
  { apply (no_new_match_tail l l' Hr [c] N X Y D); [done|done|done|apply HD| |].
    - cbn [app]. by rewrite <- HN, Hg1, <- !(assoc_L (++)).
    - by exists rest. }
  assert (is_Some (re_match pattern (c :: N ++ rest'))) as [? Hsome].
  { change (c :: N ++ rest') with ((c :: N) ++ rest').
    rewrite <- HN, <- !(assoc_L (++)). by apply re_match_complete. }
  congruence.
Qed.

Lemma fix_icons_idem t : fix_icons (fix_icons t) = fix_icons t.
Proof.
  remember (length t) as n eqn:Hn. revert t Hn.
  induction n as [n IH] using lt_wf_ind. intros t ->.
  destruct t as [|c t]; [done|].
  destruct (re_match pattern (c :: t)) as [[m rest]|] eqn:Hm.
  - pose proof (re_match_shorter _ _ _ Hm) as Hlen.
    pose proof Hm as (g1 & D & -> & He & Hg & HD)%re_match_sound.
    rewrite He in Hm |- *. rewrite (fix_icons_hit _ _ _ Hm).
    rewrite fix_icons_rewritten_icon by done.
    do 3 f_equal. by eapply IH.
  - rewrite (fix_icons_gap _ _ Hm).
    rewrite fix_icons_gap.
    + f_equal. eapply IH; [|done]. simpl. lia.
    + eapply no_new_match; [apply fix_icons_rewrites|done].
Qed.

(* ------------------------------------------------------------------ *)
(** ** Counting matches *)

Lemma findall_subn_count p repl t :
  length (re_findall p t) = snd (re_subn p repl t).
Proof.
  unfold re_findall, re_subn. cbn [snd].
  induction (scan p 0 t) as [|[c|m] ps IH]; [done| |].
  - rewrite filter_cons_False; [|simpl; tauto]. exact IH.
  - rewrite filter_cons_True by done. cbn [omap list_omap length]. by rewrite IH.
Qed.

Lemma findall_nil_unchanged t : re_findall pattern t = [] → fix_icons t = t.
Proof.
  induction t as [|c t IH]; [done|].
  destruct (re_match pattern (c :: t)) as [[m rest]|] eqn:Hm.
  - unfold re_findall. by rewrite (scan_hit _ _ _ Hm).
  - unfold re_findall. rewrite (scan_gap _ _ Hm). cbn [omap list_omap].
    intros H. rewrite (fix_icons_gap _ _ Hm). f_equal. by apply IH.
Qed.

(** Every replacement removes at least 18 characters. *)
Lemma fix_icons_length t :
  length (fix_icons t) + 18 * length (re_findall pattern t) ≤ length t.
Proof.
  remember (length t) as n eqn:Hn. revert t Hn.
  induction n as [n IH] using lt_wf_ind. intros t ->.
  destruct t as [|c t]; [simpl; lia|].
  destruct (re_match pattern (c :: t)) as [[m rest]|] eqn:Hm.
  - pose proof (re_match_shorter _ _ _ Hm) as Hlen.
    pose proof Hm as (g1 & D & -> & He & Hg & [_ HD])%re_match_sound.
    specialize (IH _ Hlen rest eq_refl).
    rewrite He in Hm |- *. rewrite (fix_icons_hit _ _ _ Hm).
    unfold re_findall in *. rewrite (scan_hit _ _ _ Hm). cbn [omap list_omap].
    rewrite !length_app, length_CHECKMARK. simpl length. lia.
  - rewrite (fix_icons_gap _ _ Hm).
    unfold re_findall in *. rewrite (scan_gap _ _ Hm). cbn [omap list_omap].
    specialize (IH (length t) ltac:(simpl; lia) t eq_refl). simpl. lia.
Qed.

Lemma changed_iff_matches t : fix_icons t ≠ t ↔ 1 ≤ length (re_findall pattern t).
Proof.
  split.
  - intros Hne. destruct (re_findall pattern t) eqn:Hf; [|simpl; lia].
    by apply findall_nil_unchanged in Hf.
  - intros Hn He. pose proof (fix_icons_length t) as Hl. rewrite He in Hl. lia.
Qed.

(** ** One iteration of the loop *)

Lemma process_file_changed name w original :
  files w !! name = Some original → fix_icons original ≠ original →
  process_file name w =
  Some (World (<[name := fix_icons original]> (files w))
              (console w ++ [fixed_line (length (re_findall pattern original)) name])
              (writes w ++ [(name, fix_icons original)])).
Proof.
  intros Hf Hne. unfold process_file. rewrite Hf.
  by destruct (decide (fix_icons original ≠ original)).
Qed.

Lemma process_file_unchanged name w original :
  files w !! name = Some original → fix_icons original = original →
  process_file name w =
  Some (World (files w) (console w ++ [unchanged_line name]) (writes w)).
Proof.
  intros Hf He. unfold process_file. rewrite Hf.
  by destruct (decide (fix_icons original ≠ original)).
Qed.

Lemma process_file_files name w w' :
  process_file name w = Some w' →
  is_Some (files w !! name) ∧ files w' = alter fix_icons name (files w).
Proof.
  unfold process_file. destruct (files w !! name) as [original|] eqn:Hf; [|done].
  split; [done|].
  assert (alter fix_icons name (files w) = <[name := fix_icons original]> (files w))
    as ->.
  { apply map_eq. intros i. destruct (decide (name = i)) as [->|Hne].
    - by rewrite lookup_alter_eq, lookup_insert_eq, Hf.
    - by rewrite lookup_alter_ne, lookup_insert_ne. }
  destruct (decide (fix_icons original ≠ original)) as [Hne|He]; simplify_eq/=.
  - done.
  - apply dec_stable in He. rewrite He. by rewrite insert_id.
Qed.

(** ** The whole run *)

Lemma run_loop_settled names w :
  settled names (files w) →
  run_loop names w =
  Some (World (files w) (console w ++ map unchanged_line names) (writes w)).
Proof.
  revert w. induction names as [|n names IH]; intros w Hs.
  - simpl. rewrite app_nil_r. by destruct w.
  - destruct (Hs n) as (c & Hc & Hfix); [set_solver|].
    cbn [run_loop]. rewrite (process_file_unchanged _ _ _ Hc Hfix).
    rewrite IH.
    + cbn [files console writes map]. by rewrite <- (assoc_L (++)).
    + intros n' Hn'. apply Hs. set_solver.
Qed.

Lemma process_file_keeps_fixed name w w' n :
  process_file name w = Some w' →
  (∃ c, files w !! n = Some c ∧ fix_icons c = c) →
  ∃ c, files w' !! n = Some c ∧ fix_icons c = c.
Proof.
  intros [_ ->]%process_file_files (c & Hc & Hfix).
  destruct (decide (name = n)) as [->|Hne].
  - exists (fix_icons c). rewrite lookup_alter_eq, Hc. split; [done|].
    apply fix_icons_idem.
  - exists c. by rewrite lookup_alter_ne.
Qed.

Lemma run_loop_keeps_fixed names w w' n :
  run_loop names w = Some w' →
  (∃ c, files w !! n = Some c ∧ fix_icons c = c) →
  ∃ c, files w' !! n = Some c ∧ fix_icons c = c.
Proof.
  revert w. induction names as [|a names IH]; intros w; simpl.
  - by intros [= ->].
  - destruct (process_file a w) as [w1|] eqn:Hp; [|done].
    intros Hr Hc. apply (IH _ Hr). by eapply process_file_keeps_fixed.
Qed.

Lemma run_loop_settles names w w' :
  run_loop names w = Some w' → settled names (files w').
Proof.
  revert w. induction names as [|a names IH]; intros w; simpl.
  - intros _ n Hn. by apply elem_of_nil in Hn.
  - destruct (process_file a w) as [w1|] eqn:Hp; [|done].
    intros Hr n [->|Hn]%elem_of_cons; [|by eapply IH].
    apply (run_loop_keeps_fixed _ _ _ _ Hr).
    apply process_file_files in Hp as [[c Hc] ->].
    exists (fix_icons c). rewrite lookup_alter_eq, Hc. split; [done|].
    apply fix_icons_idem.
Qed.

Lemma run_loop_files names w w' :
  run_loop names w = Some w' →
  files w' = foldl (λ m n, alter fix_icons n m) (files w) names.
Proof.
  revert w. induction names as [|a names IH]; intros w; simpl.
  - by intros [= ->].
  - destruct (process_file a w) as [w1|] eqn:Hp; [|done].
    intros Hr. rewrite (IH _ Hr).
    by apply process_file_files in Hp as [_ ->].
Qed.

Lemma run_loop_Some names w :
  (∀ n, n ∈ names → is_Some (files w !! n)) → is_Some (run_loop names w).
Proof.
  revert w. induction names as [|a names IH]; intros w Hdom; simpl; [done|].
  destruct (Hdom a) as [c Hc]; [set_solver|].
  destruct (process_file a w) as [w1|] eqn:Hp.
  - apply IH. intros n Hn.
    apply process_file_files in Hp as [_ ->].
    destruct (decide (a = n)) as [->|Hne].
    + rewrite lookup_alter_eq, Hc. done.
    + rewrite lookup_alter_ne by done. apply Hdom. set_solver.
  - unfold process_file in Hp. rewrite Hc in Hp. by case_decide.
Qed.

Lemma run_loop_Some_inv names w w' :
  run_loop names w = Some w' → ∀ n, n ∈ names → is_Some (files w !! n).
Proof.
  revert w. induction names as [|a names IH]; intros w; simpl.
  - intros _ n Hn. by apply elem_of_nil in Hn.
  - destruct (process_file a w) as [w1|] eqn:Hp; [|done].
    intros Hr n Hn. pose proof Hp as [Ha Hf]%process_file_files.
    apply elem_of_cons in Hn as [->|Hn]; [done|].
    specialize (IH _ Hr n Hn). rewrite Hf in IH.
    destruct (decide (a = n)) as [->|Hne]; [done|].
    by rewrite lookup_alter_ne in IH.
Qed.

Lemma alter_fix_icons_comm (m : gmap string str) a b :
  alter fix_icons a (alter fix_icons b m) = alter fix_icons b (alter fix_icons a m).
Proof.
  apply map_eq. intros i.
  destruct (decide (a = i)) as [->|Ha]; destruct (decide (b = i)) as [->|Hb];
    repeat first [rewrite lookup_alter_eq | rewrite lookup_alter_ne by done]; done.
Qed.

Lemma foldl_alter_perm names names' (m : gmap string str) :
  names ≡ₚ names' →
  foldl (λ m n, alter fix_icons n m) m names =
  foldl (λ m n, alter fix_icons n m) m names'.
Proof.
  intros Hp. revert m.
  induction Hp as [|a l l' Hp IH|a b l|l1 l2 l3 H12 IH12 H23 IH23]; intros m; simpl.
  - done.
  - apply IH.
  - by rewrite alter_fix_icons_comm.
  - by rewrite IH12.
Qed.

(** ** The pieces of a scan *)

Lemma scan_pieces t :
  t = concat (map piece_in (scan pattern 0 t)) ∧
  Forall2 kept (scan pattern 0 t) (map (emit replace_complex_icon) (scan pattern 0 t)).
Proof.
  remember (length t) as n eqn:Hn. revert t Hn.
  induction n as [n IH] using lt_wf_ind. intros t ->.
  destruct t as [|c t]; [by split; [|constructor]|].
  destruct (re_match pattern (c :: t)) as [[m rest]|] eqn:Hm.
  - pose proof (re_match_shorter _ _ _ Hm) as Hlen.
    pose proof Hm as (g1 & D & -> & He & Hg & HD)%re_match_sound.
    destruct (IH _ Hlen rest eq_refl) as [IH1 IH2].
    rewrite (scan_hit _ _ _ Hm). cbn [map concat]. split.
    + rewrite <- IH1, He. cbn. by rewrite <- !(assoc_L (++)).
    + constructor; [|done]. exists CHECKMARK. split; [by left|].
      cbn [emit]. by rewrite replace_complex_icon_groups.
  - destruct (IH (length t) ltac:(simpl; lia) t eq_refl) as [IH1 IH2].
    rewrite (scan_gap _ _ Hm). cbn [map concat]. split.
    + cbn. by rewrite <- IH1.
    + by constructor.
Qed.

(* ------------------------------------------------------------------ *)
(** ** Texts without a match *)

Lemma no_match_anywhere t :
  (∀ P S, t = P ++ S → S ≠ [] → re_match pattern S = None) → untouched t.
Proof.
  intros H.
  assert (scan pattern 0 t = map Gap t) as Hs.
  { rewrite <- (app_nil_r t) at 1. rewrite scan_gaps.
    - by rewrite scan_nil, app_nil_r.
    - intros P S -> HS. rewrite app_nil_r. by eapply H. }
  unfold untouched, re_findall, fix_icons, re_sub, re_subn. cbn [fst].
  rewrite Hs. split; [|apply map_emit_gap].
  clear. induction t as [|c t IH]; [done|]. simpl. apply IH.
Qed.

Lemma contains_unfold w t :
  contains w t =
  match strip_prefix w t with
  | Some _ => true
  | None => match t with [] => false | _ :: t' => contains w t' end
  end.
Proof. by destruct t. Qed.

Lemma contains_false w t :
  contains w t = false → ∀ pre post, t ≠ pre ++ w ++ post.
Proof.
  intros Hc pre. revert t Hc. induction pre as [|c pre IH]; intros t Hc post He;
    subst t; rewrite contains_unfold in Hc.
  - cbn [app] in Hc. by rewrite strip_prefix_app in Hc.
  - destruct (strip_prefix w _); [done|]. by apply (IH _ Hc post).
Qed.

Lemma no_close_no_match t :
  (∀ a b, t ≠ a ++ CLOSE ++ b) → untouched t.
Proof.
  intros Hno. apply no_match_anywhere. intros P S -> _.
  destruct (re_match pattern S) as [[m rest]|] eqn:Hm; [exfalso|done].
  apply re_match_sound in Hm as (g1 & D & _ & -> & _).
  apply (Hno (P ++ g1 ++ D) rest). by rewrite <- !(assoc_L (++)).
Qed.

Lemma split_at (c : ascii) a b l1 l2 :
  a ++ c :: b = l1 ++ l2 →
  (∃ x2, l1 = a ++ c :: x2 ∧ b = x2 ++ l2) ∨
  (∃ a', a = l1 ++ a' ∧ a' ++ c :: b = l2).
Proof.
  intros [(k & -> & ->)|(k & -> & He)]%app_eq_inv.
  - right. by exists k.
  - destruct k as [|c' k].
    + right. exists []. split; [by rewrite !app_nil_r|done].
    + simplify_eq/=. left. by eexists.
Qed.

Lemma dq_not_in_H2SVG : dq ∉ H2SVG.
Proof. apply (bool_decide_unpack _). by vm_compute. Qed.

Lemma dq_not_in_GTPATH : dq ∉ GTPATH.
Proof. apply (bool_decide_unpack _). by vm_compute. Qed.

Lemma close_tail_vs_d y2 b W :
  ">"%char ∉ y2 → s " /></svg>" ++ b ≠ y2 ++ "d"%char :: W.
Proof.
  intros Hy He. unfold s in He.
  destruct y2 as [|b0 [|b1 [|b2 y2]]]; simplify_eq/=.
  apply Hy. set_solver.
Qed.

Lemma close_tail_vs_path x2 b W :
  ">"%char ∉ x2 → s " /></svg>" ++ b ≠ x2 ++ GTPATH ++ W.
Proof.
  intros Hx He. lits.
  destruct x2 as [|b0 [|b1 [|b2 x2]]]; simplify_eq/=.
  apply Hx. set_solver.
Qed.

(** Where the closing sequence can occur in a text that begins like an
    icon: after a quote inside the attributes of the [path] tag, or later. *)
Lemma close_in_icon_text a b X Y W :
  ">"%char ∉ X → ">"%char ∉ Y →
  a ++ CLOSE ++ b = H2SVG ++ X ++ GTPATH ++ Y ++ W →
  (∃ y2, (">"%char ∉ y2) ∧ s " /></svg>" ++ b = y2 ++ W) ∨
  (∃ a4, a4 ++ CLOSE ++ b = W).
Proof.
  intros HX HY He.
  change (CLOSE ++ b) with (dq :: (s " /></svg>" ++ b)) in *.
  apply split_at in He as [(x2 & Hx & _)|(a1 & -> & He)].
  { exfalso. apply dq_not_in_H2SVG. rewrite Hx. set_solver. }
  apply split_at in He as [(x2 & -> & He)|(a2 & -> & He)].
  { exfalso. revert He. apply close_tail_vs_path.
    rewrite not_elem_of_app, not_elem_of_cons in HX. tauto. }
  apply split_at in He as [(x2 & Hx & _)|(a3 & -> & He)].
  { exfalso. apply dq_not_in_GTPATH. rewrite Hx. set_solver. }
  apply split_at in He as [(y2 & -> & He)|(a4 & -> & He)].
  - left. exists y2. split; [|done].
    rewrite not_elem_of_app, not_elem_of_cons in HY. tauto.
  - right. by exists a4.
Qed.

(** The [d] attribute in single quotes. *)
Lemma single_quoted_untouched X Y D :
  ">"%char ∉ X → ">"%char ∉ Y → dq ∉ D →
  untouched (heading_icon (s "<h2>") X Y (s "d='") D (s "' /></svg>")).
Proof.
  intros HX HY HD. apply no_close_no_match. intros a b He. symmetry in He.
  change (heading_icon (s "<h2>") X Y (s "d='") D (s "' /></svg>"))
    with (H2SVG ++ X ++ GTPATH ++ Y ++ "d"%char :: (s "='" ++ D ++ s "' /></svg>"))
    in He.
  apply (close_in_icon_text _ _ X Y _ HX HY) in He as [(y2 & Hy & He)|(a4 & He)].
  - revert He. by apply close_tail_vs_d.
  - assert (dq ∈ "d"%char :: s "='" ++ D ++ s "' /></svg>") as Hin.
    { rewrite <- He. change (CLOSE ++ b) with (dq :: (s " /></svg>" ++ b)).
      set_solver. }
    apply elem_of_cons in Hin as [?|Hin]; [done|].
    rewrite !elem_of_app in Hin. destruct Hin as [Hin|[Hin|Hin]]; [|done|].
    + revert Hin. apply (bool_decide_unpack _). by vm_compute.
    + revert Hin. apply (bool_decide_unpack _). by vm_compute.
Qed.

(** The self-close written without the space. *)
Lemma no_space_untouched X Y D :
  ">"%char ∉ X → ">"%char ∉ Y → dq ∉ D → ">"%char ∉ D →
  untouched (heading_icon (s "<h2>") X Y DEQ D (dq :: s "/></svg>")).
Proof.
  intros HX HY HD HD'. apply no_close_no_match. intros a b He. symmetry in He.
  change (heading_icon (s "<h2>") X Y DEQ D (dq :: s "/></svg>"))
    with (H2SVG ++ X ++ GTPATH ++ Y ++
          "d"%char :: (s "=" ++ dq :: (D ++ dq :: s "/></svg>"))) in He.
  apply (close_in_icon_text _ _ X Y _ HX HY) in He as [(y2 & Hy & He)|(a4 & He)].
  { revert He. by apply close_tail_vs_d. }
  change (CLOSE ++ b) with (dq :: (s " /></svg>" ++ b)) in He.
  change ("d"%char :: s "=" ++ dq :: D ++ dq :: s "/></svg>")
    with (s "d=" ++ (dq :: D ++ dq :: s "/></svg>")) in He.
  apply split_at in He as [(x2 & Hx & _)|(a5 & -> & He)].
  { assert (dq ∈ s "d=") as Hin by (rewrite Hx; set_solver).
    revert Hin. apply (bool_decide_unpack _). by vm_compute. }
  destruct a5 as [|x a5].
  { injection He as He. unfold s in He.
    destruct D as [|d0 [|d1 [|d2 D]]]; simplify_eq/=.
    apply HD'. set_solver. }
  injection He as -> He.
  apply split_at in He as [(x2 & -> & _)|(a6 & -> & He)].
  { apply HD. set_solver. }
  destruct a6 as [|x a6].
  { injection He as He. unfold s in He. simplify_eq/=. }
  injection He as -> He.
  apply (f_equal length) in He. rewrite length_app in He. simpl in He. lia.
Qed.

(** A tail of the path data with the closing sequence is too short for a
    match of its own. *)
Lemma data_tail_no_match D2 :
  dq ∉ D2 → re_match pattern (D2 ++ CLOSE) = None.
Proof.
  intros HD.
  destruct (re_match pattern _) as [[m rest]|] eqn:Hm; [exfalso|done].
  apply re_match_sound in Hm as (g1 & D & _ & He & (X & Y & -> & _) & [_ Hlen]).
  change DEQ with (s "d=" ++ [dq]) in He.
  change CLOSE with (dq :: s " /></svg>") in He at 1.
  rewrite <- !(assoc_L (++)) in He. cbn [app] in He.
  rewrite !(assoc_L (++) _ _ (dq :: _)) in He. symmetry in He.
  apply split_at in He as [(x2 & -> & _)|(a' & _ & He)].
  - apply HD. set_solver.
  - apply (f_equal length) in He. rewrite !length_app in He.
    change (length CLOSE) with 10 in He. simpl in He.
    rewrite !length_app in He. simpl in He. lia.
Qed.

Lemma attrs_then_svg A2 W T :
  ">"%char ∉ A2 → A2 ≠ s "<h2" →
  A2 ++ s ">" ++ s "<svg" ++ W ≠ H2SVG ++ T.
Proof.
  intros HA Hne He. lits.
  destruct A2 as [|x0 [|x1 [|x2 [|x3 A2]]]]; simplify_eq/=.
  apply HA. set_solver.
Qed.

(** The heading tag with attributes. *)
Lemma attributed_heading_untouched A X Y D :
  A ≠ [] → ">"%char ∉ A → ¬ s "<h2" `suffix_of` A →
  ">"%char ∉ X → ">"%char ∉ Y → dq ∉ D →
  untouched (heading_icon (s "<h2" ++ A ++ s ">") X Y DEQ D CLOSE).
Proof.
  intros HA0 HA Hsuf HX HY HD. apply no_match_anywhere. intros P S He HS.
  unfold heading_icon in He. symmetry in He.
  apply app_eq_inv in He as [(k & -> & He)|(k & Hk & ->)].
  - destruct (re_match pattern S) as [[m rest]|] eqn:Hm; [exfalso|done].
    pose proof Hm as (g1 & D' & _ & HS' & (X' & Y' & -> & _) & _)%re_match_sound.
    destruct (tail_start (s "<h2>" ++ k) S X Y D []
                (X' ++ GTPATH ++ Y' ++ DEQ ++ D' ++ CLOSE ++ rest))
      as (D1 & D2 & -> & ->); [done|done|done| |done| |].
    + rewrite <- (assoc_L (++)), <- He. done.
    + by rewrite app_nil_r, HS', <- !(assoc_L (++)).
    + rewrite data_tail_no_match in Hm; [done|].
      rewrite not_elem_of_app in HD. tauto.
  - apply re_match_head.
    destruct (strip_prefix H2SVG _) as [T|] eqn:Hs; [exfalso|done].
    apply strip_prefix_Some in Hs. symmetry in Hk.
    apply app_eq_inv in Hk as [(k1 & -> & Hk)|(k1 & Hk & ->)].
    + apply app_eq_inv in Hk as [(k2 & -> & ->)|(k2 & -> & Hk)].
      * revert Hs. rewrite <- !(assoc_L (++)). apply attrs_then_svg.
        -- rewrite not_elem_of_app in HA. tauto.
        -- intros ->. apply Hsuf. by exists k1.
      * destruct k2 as [|x [|y k2]]; unfold H2SVG, s in *; simplify_eq/=.
    + destruct P as [|p P].
      * simpl in Hk. subst k1. destruct A as [|a A]; [done|].
        unfold H2SVG, s in *. simplify_eq/=. apply HA. set_solver.
      * destruct k1 as [|c k1].
        -- revert Hs. rewrite app_nil_l, <- !(assoc_L (++)).
           apply attrs_then_svg; [done|].
           intros ->. apply Hsuf. by exists [].
        -- revert Hs. rewrite <- (assoc_L (++)).
           apply (tails_clash_app (s "<h2") H2SVG 1 (p :: P)); [done|done| |done].
           simpl. lia.
Qed.

(* ------------------------------------------------------------------ *)
(** * The properties *)

(** C1 (keyword routing).  The callback chooses the alert path when its third
    group contains a trigger word, but the third group of the pattern is the
    closing sequence alone: for every match the callback returns the
    checkmark, and markup after the icon that says Pitfall or Challenge, in
    any case, is not looked at. *)
Theorem trailing_pitfall_gets_checkmark :
  (∀ t, match re_match pattern t with
        | Some (m, _) =>
            group m 3 = CLOSE ∧
            replace_complex_icon m = group m 1 ++ CHECKMARK ++ group m 3
        | None => True
        end) ∧
  replace_complex_icon
    [H2SVG; replicate 81 "B"%char; CLOSE ++ s "<span>PitFall</span>"] =
    H2SVG ++ ALERT ++ CLOSE ++ s "<span>PitFall</span>" ∧
  re_findall pattern (icon 81 ++ s "<span>PitFall</span> CHALLENGE</h2>") =
    [[H2SVG ++ GTPATH ++ s " " ++ DEQ; replicate 81 "A"%char; CLOSE]] ∧
  fix_icons (icon 81 ++ s "<span>PitFall</span> CHALLENGE</h2>") =
    icon_after (s "<h2>") CHECKMARK ++ s "<span>PitFall</span> CHALLENGE</h2>".
Proof.
  split; [|by vm_compute].
  intros t. destruct (re_match pattern t) as [[m rest]|] eqn:Hm; [|done].
  apply re_match_sound in Hm as (g1 & D & -> & _).
  split; [done|]. apply replace_complex_icon_groups.
Qed.

(** C2 (threshold).  Path data of exactly 80 characters is replaced, like
    path data of 81 characters; 79 characters are left alone.  The bound of
    the pattern is 80 or more, not more than 80. *)
Theorem eighty_characters_are_replaced :
  fix_icons (icon 80) = icon_after (s "<h2>") CHECKMARK ∧
  fix_icons (icon 80) ≠ icon 80 ∧
  fix_icons (icon 81) ≠ icon 81 ∧
  fix_icons (icon 79) = icon 79.
Proof.
  split; [by vm_compute|]. split; [|split; [|by vm_compute]].
  - apply changed_iff_matches. by vm_compute.
  - apply changed_iff_matches. by vm_compute.
Qed.

(** C3 (idempotence).  Rewriting a rewritten text changes nothing, both
    replacement paths are shorter than 80 characters, and a second run over
    the same files prints that no changes were needed for each of them and
    writes nothing. *)
Theorem second_run_changes_nothing (names : list string) (w w1 : world) :
  main names w = Some w1 →
  (∀ content, fix_icons (fix_icons content) = fix_icons content) ∧
  length CHECKMARK < 80 ∧ length ALERT < 80 ∧
  main names w1 =
    Some (World (files w1)
                (console w1 ++ map unchanged_line names ++ ["Done!"%string])
                (writes w1)).
Proof.
  intros Hmain. split; [apply fix_icons_idem|].
  split; [vm_compute; lia|]. split; [vm_compute; lia|].
  unfold main in Hmain. destruct (run_loop names w) as [w0|] eqn:Hr; [|done].
  injection Hmain as <-. unfold main.
  rewrite run_loop_settled.
  - cbn [files console writes]. by rewrite <- (assoc_L (++)).
  - cbn [files]. by eapply run_loop_settles.
Qed.

Lemma second_run_changes_nothing_witness :
  main ["a.html"%string] world0 = Some world1 ∧
  ((∀ content, fix_icons (fix_icons content) = fix_icons content) ∧
   length CHECKMARK < 80 ∧ length ALERT < 80 ∧
   main ["a.html"%string] world1 =
     Some (World (files world1)
                 (console world1 ++
                    map unchanged_line ["a.html"%string] ++ ["Done!"%string])
                 (writes world1))).
Proof.
  assert (main ["a.html"%string] world0 = Some world1) as H by (by vm_compute).
  split; [exact H|].
  exact (second_run_changes_nothing ["a.html"%string] world0 world1 H).
Defined.

(** C4 (scenario).  For [a.html] with 85 characters of path data followed by
    a span that says Pitfall, the run prints that it fixed 1 icon, and the
    path written is the checkmark, not the alert path. *)
Theorem scenario_gets_checkmark :
  fix_icons (a_html (replicate 85 "A"%char)) = a_html CHECKMARK ∧
  fix_icons (a_html (replicate 85 "A"%char)) ≠ a_html ALERT ∧
  main ["a.html"%string] world0 = Some world1.
Proof.
  split; [by vm_compute|]. split; [|by vm_compute].
  intros H. apply (f_equal length) in H. by vm_compute in H.
Qed.

(** C5 (reported count).  When the new text differs from the one read, the
    number printed is the number of matches that [re.findall] finds in the
    original text; it is the number of replacements that the substitution
    made, and it is at least 1. *)
Theorem reported_count_is_match_count (name : string) (w : world) (original : str) :
  files w !! name = Some original →
  fix_icons original ≠ original →
  fix_icons original = fst (re_subn pattern replace_complex_icon original) ∧
  length (re_findall pattern original) =
    snd (re_subn pattern replace_complex_icon original) ∧
  1 ≤ length (re_findall pattern original) ∧
  process_file name w =
    Some (World (<[name := fix_icons original]> (files w))
                (console w ++
                   [("Fixed " +:+ show_nat (length (re_findall pattern original))
                     +:+ " complex icons in " +:+ name)%string])
                (writes w ++ [(name, fix_icons original)])).
Proof.
  intros Hf Hne. split; [done|]. split; [apply findall_subn_count|].
  split; [by apply changed_iff_matches|].
  by apply process_file_changed.
Qed.

Lemma reported_count_is_match_count_witness :
  files world0 !! "a.html"%string = Some (a_html (replicate 85 "A"%char)) ∧
  fix_icons (a_html (replicate 85 "A"%char)) ≠ a_html (replicate 85 "A"%char) ∧
  process_file "a.html" world0 =
    Some (World (<["a.html"%string := fix_icons (a_html (replicate 85 "A"%char))]>
                   (files world0))
                (console world0 ++
                   [("Fixed " +:+
                     show_nat (length (re_findall pattern
                                         (a_html (replicate 85 "A"%char))))
                     +:+ " complex icons in " +:+ "a.html")%string])
                (writes world0 ++
                   [("a.html"%string, fix_icons (a_html (replicate 85 "A"%char)))])).
Proof.
  assert (files world0 !! "a.html"%string = Some (a_html (replicate 85 "A"%char)))
    as H1 by (by vm_compute).
  assert (fix_icons (a_html (replicate 85 "A"%char)) ≠ a_html (replicate 85 "A"%char))
    as H2.
  { intros H. apply (f_equal length) in H. by vm_compute in H. }
  split; [exact H1|]. split; [exact H2|].
  exact (proj2 (proj2 (proj2
    (reported_count_is_match_count "a.html" world0 _ H1 H2)))).
Defined.

(** C6 (no spurious writes).  An iteration of the loop calls [write_text]
    exactly when the new text differs from the one read.  When they are
    equal, as they are for a file without matches, the directory and the
    list of writes stay as they were and the line printed says that no
    changes were needed. *)
Theorem write_iff_changed (name : string) (w : world) (original : str) :
  files w !! name = Some original →
  ∃ w', process_file name w = Some w' ∧
        (writes w' ≠ writes w ↔ fix_icons original ≠ original) ∧
        (fix_icons original ≠ original →
           writes w' = writes w ++ [(name, fix_icons original)] ∧
           files w' = <[name := fix_icons original]> (files w)) ∧
        (fix_icons original = original →
           writes w' = writes w ∧ files w' = files w ∧
           console w' = console w ++ ["No changes needed in " +:+ name]%string) ∧
        (re_findall pattern original = [] → fix_icons original = original).
Proof.
  intros Hf. destruct (decide (fix_icons original = original)) as [He|Hne].
  - eexists. split; [by apply (process_file_unchanged _ _ original)|].
    cbn [files console writes].
    split; [split; intros H; done|]. split; [done|].
    split; [done|]. apply findall_nil_unchanged.
  - eexists. split; [by apply (process_file_changed _ _ original)|].
    cbn [files console writes].
    split.
    { split; [done|]. intros _ H. apply (f_equal length) in H.
      rewrite length_app in H. simpl in H. lia. }
    split; [done|]. split; [done|]. apply findall_nil_unchanged.
Qed.

Lemma write_iff_changed_witness :
  files world2 !! "c.html"%string = Some (s "<h2>Plain</h2>") ∧
  ∃ w', process_file "c.html" world2 = Some w' ∧
        (writes w' ≠ writes world2 ↔
           fix_icons (s "<h2>Plain</h2>") ≠ s "<h2>Plain</h2>") ∧
        (fix_icons (s "<h2>Plain</h2>") ≠ s "<h2>Plain</h2>" →
           writes w' = writes world2 ++ [("c.html"%string, fix_icons (s "<h2>Plain</h2>"))] ∧
           files w' = <["c.html"%string := fix_icons (s "<h2>Plain</h2>")]> (files world2)) ∧
        (fix_icons (s "<h2>Plain</h2>") = s "<h2>Plain</h2>" →
           writes w' = writes world2 ∧ files w' = files world2 ∧
           console w' = console world2 ++ ["No changes needed in " +:+ "c.html"]%string) ∧
        (re_findall pattern (s "<h2>Plain</h2>") = [] →
           fix_icons (s "<h2>Plain</h2>") = s "<h2>Plain</h2>").
Proof.
  assert (files world2 !! "c.html"%string = Some (s "<h2>Plain</h2>"))
    as H by (by vm_compute).
  split; [exact H|].
  exact (write_iff_changed "c.html" world2 (s "<h2>Plain</h2>") H).
Defined.

(** C8 (frame).  The input is the concatenation of the pieces of the scan,
    the output is the concatenation of what is kept of each piece: a
    character outside the matches as it is, a match as its first group, a
    replacement path and its third group.  The matches among the pieces are
    those that [re.findall] returns. *)
Theorem only_path_data_changes (content : str) :
  ∃ (ps : list piece) (outs : list str),
    omap hit ps = re_findall pattern content ∧
    content = concat (map piece_in ps) ∧
    fix_icons content = concat outs ∧
    Forall2 kept ps outs.
Proof.
  exists (scan pattern 0 content),
         (map (emit replace_complex_icon) (scan pattern 0 content)).
  destruct (scan_pieces content) as [H1 H2]. done.
Qed.

(** C10 (determinism).  Two files with the same text, in any two
    directories and under any two names, get the same new text and the same
    line up to the name; and the directory that a run leaves does not depend
    on the order in which the files are listed. *)
Theorem result_depends_on_content_only
    (name1 name2 : string) (w1 w2 : world) (content : str) :
  files w1 !! name1 = Some content →
  files w2 !! name2 = Some content →
  (∃ (new : str) (line : string → string) (w1' w2' : world),
     process_file name1 w1 = Some w1' ∧ process_file name2 w2 = Some w2' ∧
     files w1' !! name1 = Some new ∧ files w2' !! name2 = Some new ∧
     console w1' = console w1 ++ [line name1] ∧
     console w2' = console w2 ++ [line name2] ∧
     (line = unchanged_line ∨ ∃ n, line = fixed_line n)) ∧
  (∀ names names' w',
     names ≡ₚ names' → run_loop names w1 = Some w' →
     ∃ w'', run_loop names' w1 = Some w'' ∧ files w'' = files w').
Proof.
  intros H1 H2. split.
  - destruct (decide (fix_icons content = content)) as [He|Hne].
    + exists content, unchanged_line. eexists. eexists.
      split; [by apply (process_file_unchanged _ _ content)|].
      split; [by apply (process_file_unchanged _ _ content)|].
      cbn [files console]. repeat split; try done. by left.
    + exists (fix_icons content),
             (fixed_line (length (re_findall pattern content))).
      eexists. eexists.
      split; [by apply (process_file_changed _ _ content)|].
      split; [by apply (process_file_changed _ _ content)|].
      cbn [files console]. rewrite !lookup_insert_eq.
      repeat split; try done. right. by eexists.
  - intros names names' w' Hp Hr.
    destruct (run_loop_Some names' w1) as [w'' Hr'].
    { intros n Hn. apply (run_loop_Some_inv _ _ _ Hr). by rewrite Hp. }
    exists w''. split; [done|].
    rewrite (run_loop_files _ _ _ Hr), (run_loop_files _ _ _ Hr').
    symmetry. by apply foldl_alter_perm.
Qed.

Lemma result_depends_on_content_only_witness :
  files world2 !! "a.html"%string = Some (icon 90) ∧
  files world2 !! "b.html"%string = Some (icon 90) ∧
  ∃ (new : str) (line : string → string) (w1' w2' : world),
    process_file "a.html" world2 = Some w1' ∧
    process_file "b.html" world2 = Some w2' ∧
    files w1' !! "a.html"%string = Some new ∧
    files w2' !! "b.html"%string = Some new ∧
    console w1' = console world2 ++ [line "a.html"%string] ∧
    console w2' = console world2 ++ [line "b.html"%string] ∧
    (line = unchanged_line ∨ ∃ n, line = fixed_line n).
Proof.
  assert (files world2 !! "a.html"%string = Some (icon 90)) as H1 by (by vm_compute).
  assert (files world2 !! "b.html"%string = Some (icon 90)) as H2 by (by vm_compute).
  split; [exact H1|]. split; [exact H2|].
  exact (proj1 (result_depends_on_content_only
                  "a.html" "b.html" world2 world2 (icon 90) H1 H2)).
Defined.

(** C7 (heading tag must come right before).  A text in which no opening of
    an [svg] tag comes right after the heading tag [<h2>] has no match and is
    left as it is. *)
Theorem icon_not_after_heading_untouched (content : str) :
  (∀ pre post, content = pre ++ s "<svg" ++ post → ¬ s "<h2>" `suffix_of` pre) →
  re_findall pattern content = [] ∧ fix_icons content = content.
Proof.
  intros Hno. apply no_match_anywhere. intros P S -> HS.
  apply re_match_head.
  destruct (strip_prefix H2SVG S) as [T|] eqn:Hs; [exfalso|done].
  apply strip_prefix_Some in Hs as ->.
  apply (Hno (P ++ s "<h2>") T).
  - by rewrite <- (assoc_L (++)).
  - by exists P.
Qed.

Lemma icon_not_after_heading_untouched_witness :
  (∀ pre post, spaced_icon = pre ++ s "<svg" ++ post →
               ¬ s "<h2>" `suffix_of` pre) ∧
  re_findall pattern spaced_icon = [] ∧
  fix_icons spaced_icon = spaced_icon.
Proof.
  assert (∀ pre post, spaced_icon = pre ++ s "<svg" ++ post →
                      ¬ s "<h2>" `suffix_of` pre) as H.
  { intros pre post He [k ->]. revert He. rewrite <- (assoc_L (++)).
    apply (contains_false (s "<h2>" ++ s "<svg") spaced_icon).
    by vm_compute. }
  split; [exact H|].
  exact (icon_not_after_heading_untouched spaced_icon H).
Defined.

(** C9 (exact tokens).  A match consists of the literal [<h2><svg], text
    without [>], [><path], text without [>], the [d] attribute opened with a
    double quote, the path data, and the closing sequence quote, space,
    slash, [></svg>].  An icon written in that form with at least 80
    characters of path data is matched; the same icon with attributes on the
    heading tag, with the [d] attribute in single quotes, or with the
    self-close written without the space, has no match and is left as it
    is. *)
Theorem only_exact_tokens_match (A X Y D : str) :
  A ≠ [] → ">"%char ∉ A → ¬ s "<h2" `suffix_of` A →
  ">"%char ∉ X → ">"%char ∉ Y → dq ∉ D → ">"%char ∉ D →
  (∀ t, match re_match pattern t with
        | Some (m, rest) =>
            ∃ X' Y' D', (">"%char ∉ X') ∧ (">"%char ∉ Y') ∧ (dq ∉ D') ∧
              m = [H2SVG ++ X' ++ GTPATH ++ Y' ++ DEQ; D'; CLOSE] ∧
              t = H2SVG ++ X' ++ GTPATH ++ Y' ++ DEQ ++ D' ++ CLOSE ++ rest
        | None => True
        end) ∧
  (80 ≤ length D →
     is_Some (re_match pattern (heading_icon (s "<h2>") X Y DEQ D CLOSE))) ∧
  untouched (heading_icon (s "<h2" ++ A ++ s ">") X Y DEQ D CLOSE) ∧
  untouched (heading_icon (s "<h2>") X Y (s "d='") D (s "' /></svg>")) ∧
  untouched (heading_icon (s "<h2>") X Y DEQ D (dq :: s "/></svg>")).
Proof.
  intros HA0 HA Hsuf HX HY HD HD'. split; [|split; [|split; [|split]]].
  - intros t. destruct (re_match pattern t) as [[m rest]|] eqn:Hm; [|done].
    apply re_match_sound in Hm
      as (g1 & D0 & -> & -> & (X' & Y' & -> & HX' & HY') & [HD0 _]).
    exists X', Y', D0. by rewrite <- !(assoc_L (++)).
  - intros Hlen.
    change (heading_icon (s "<h2>") X Y DEQ D CLOSE)
      with (H2SVG ++ X ++ GTPATH ++ Y ++ DEQ ++ D ++ CLOSE).
    pose proof (re_match_complete (H2SVG ++ X ++ GTPATH ++ Y ++ DEQ) D []) as Hc.
    rewrite app_nil_r, <- !(assoc_L (++)) in Hc. apply Hc; [by exists X, Y|done].
  - by apply attributed_heading_untouched.
  - by apply single_quoted_untouched.
  - by apply no_space_untouched.
Qed.

Lemma only_exact_tokens_match_witness :
  class_x ≠ [] ∧ (">"%char ∉ class_x) ∧ (¬ s "<h2" `suffix_of` class_x) ∧
  (">"%char ∉ s " x='1'") ∧ (">"%char ∉ s " ") ∧
  (dq ∉ replicate 85 "A"%char) ∧ (">"%char ∉ replicate 85 "A"%char) ∧
  is_Some (re_match pattern
             (heading_icon (s "<h2>") (s " x='1'") (s " ") DEQ
                           (replicate 85 "A"%char) CLOSE)) ∧
  untouched (heading_icon (s "<h2" ++ class_x ++ s ">") (s " x='1'") (s " ") DEQ
                          (replicate 85 "A"%char) CLOSE) ∧
  untouched (heading_icon (s "<h2>") (s " x='1'") (s " ") (s "d='")
                          (replicate 85 "A"%char) (s "' /></svg>")) ∧
  untouched (heading_icon (s "<h2>") (s " x='1'") (s " ") DEQ
                          (replicate 85 "A"%char) (dq :: s "/></svg>")).
Proof.
  assert (class_x ≠ []) as H1 by done.
  assert (">"%char ∉ class_x) as H2 by (apply (bool_decide_unpack _); by vm_compute).
  assert (¬ s "<h2" `suffix_of` class_x) as H3
    by (apply (bool_decide_unpack _); by vm_compute).
  assert (">"%char ∉ s " x='1'") as H4 by (apply (bool_decide_unpack _); by vm_compute).
  assert (">"%char ∉ s " ") as H5 by (apply (bool_decide_unpack _); by vm_compute).
  assert (dq ∉ replicate 85 "A"%char) as H6
    by (apply (bool_decide_unpack _); by vm_compute).
  assert (">"%char ∉ replicate 85 "A"%char) as H7
    by (apply (bool_decide_unpack _); by vm_compute).
  pose proof (only_exact_tokens_match class_x (s " x='1'") (s " ")
                (replicate 85 "A"%char) H1 H2 H3 H4 H5 H6 H7)
    as (_ & Hm & Ha & Hb & Hc).
  repeat (split; [assumption|]).
  split; [apply Hm; rewrite length_replicate; lia|]. done.
Defined.

(* ------------------------------------------------------------------ *)
(** * Further properties of the script *)

(** ** Matches and lengths *)

Lemma findall_hit t m rest :
  re_match pattern t = Some (m, rest) →
  re_findall pattern t = m :: re_findall pattern rest.
Proof. intros H. unfold re_findall. by rewrite (scan_hit _ _ _ H). Qed.

Lemma findall_gap c t :
  re_match pattern (c :: t) = None →
  re_findall pattern (c :: t) = re_findall pattern t.
Proof. intros H. unfold re_findall. by rewrite (scan_gap _ _ H). Qed.

Lemma re_match_min_length t m rest :
  re_match pattern t = Some (m, rest) → length rest + 107 ≤ length t.
Proof.
  intros (g1 & D & _ & -> & (X & Y & -> & _) & [_ HD])%re_match_sound.
  rewrite !length_app.
  change (length CLOSE) with 10. change (length H2SVG) with 8.
  change (length GTPATH) with 6. change (length DEQ) with 3. lia.
Qed.

(** X1.  A match spans at least 107 characters, so a text shorter than that
    (the empty text among them) has no match and is left as it is; the bound
    is met by an icon without attributes and with 80 characters of data. *)
Theorem short_text_untouched (t : str) :
  length t < 107 →
  untouched t ∧ length least_icon = 107 ∧ fix_icons least_icon ≠ least_icon.
Proof.
  intros Hlen. split; [|split; [done|]].
  - apply no_match_anywhere. intros P S -> _.
    destruct (re_match pattern S) as [[m rest]|] eqn:Hm; [exfalso|done].
    apply re_match_min_length in Hm. rewrite length_app in Hlen. lia.
  - apply changed_iff_matches. by vm_compute.
Qed.

Lemma short_text_untouched_witness :
  length (s "<h2>Plain</h2>") < 107 ∧
  (untouched (s "<h2>Plain</h2>") ∧ length least_icon = 107 ∧
   fix_icons least_icon ≠ least_icon).
Proof.
  assert (length (s "<h2>Plain</h2>") < 107) as H by (vm_compute; lia).
  split; [exact H|]. exact (short_text_untouched (s "<h2>Plain</h2>") H).
Defined.

(** X2.  The new text is shorter than the old one by the sum, over the
    matches, of the length of the path data minus the 62 characters of the
    checkmark; every matched path data has at least 80 characters, so a
    rewrite never makes a text longer. *)
Theorem length_accounting (t : str) :
  length (fix_icons t) +
    sum_list_with (λ m, length (group m 2) - length CHECKMARK)
                  (re_findall pattern t) = length t ∧
  Forall (λ m, 80 ≤ length (group m 2)) (re_findall pattern t).
Proof.
  remember (length t) as n eqn:Hn. revert t Hn.
  induction n as [n IH] using lt_wf_ind. intros t ->.
  destruct t as [|c t]; [by split; [|constructor]|].
  destruct (re_match pattern (c :: t)) as [[m rest]|] eqn:Hm.
  - pose proof (re_match_shorter _ _ _ Hm) as Hlen.
    pose proof Hm as (g1 & D & -> & He & Hg & [? HD])%re_match_sound.
    destruct (IH _ Hlen rest eq_refl) as [IH1 IH2].
    rewrite (findall_hit _ _ _ Hm). rewrite He in Hm |- *.
    rewrite (fix_icons_hit _ _ _ Hm). cbn [sum_list_with].
    change (group [g1; D; CLOSE] 2) with D. split; [|by constructor].
    rewrite !length_app, length_CHECKMARK in *. lia.
  - destruct (IH (length t) ltac:(simpl; lia) t eq_refl) as [IH1 IH2].
    rewrite (findall_gap _ _ Hm), (fix_icons_gap _ _ Hm). split; [|done].
    cbn [length]. lia.
Qed.

(** X3.  A text is changed exactly when it contains, anywhere, a word of the
    pattern: a first group of the form of [icon_head], at least 80
    characters without a double quote, and the closing sequence. *)
Theorem changed_iff_contains_icon (t : str) :
  fix_icons t ≠ t ↔
  ∃ a g1 D b, icon_head g1 ∧ icon_data D ∧ t = a ++ g1 ++ D ++ CLOSE ++ b.
Proof.
  split.
  - intros Hne%changed_iff_matches.
    induction t as [|c t IH]; [simpl in Hne; lia|].
    destruct (re_match pattern (c :: t)) as [[m rest]|] eqn:Hm.
    + apply re_match_sound in Hm as (g1 & D & _ & -> & Hg & HD).
      by exists [], g1, D, rest.
    + rewrite (findall_gap _ _ Hm) in Hne.
      destruct (IH Hne) as (a & g1 & D & b & Hg & HD & ->).
      by exists (c :: a), g1, D, b.
  - intros (a & g1 & D & b & Hg & HD & ->).
    apply changed_iff_matches.
    induction a as [|c a IH].
    + destruct (re_match_complete g1 D b Hg HD) as [[m rest] Hm].
      cbn [app]. rewrite (findall_hit _ _ _ Hm). simpl. lia.
    + cbn [app]. destruct (re_match pattern (c :: a ++ g1 ++ D ++ CLOSE ++ b))
        as [[m rest]|] eqn:Hm.
      * rewrite (findall_hit _ _ _ Hm). simpl. lia.
      * by rewrite (findall_gap _ _ Hm).
Qed.

(** X4.  Text without [<] in front of a text passes through as it is and
    does not change what is found and rewritten after it. *)
Theorem text_without_lt_passes (a b : str) :
  "<"%char ∉ a →
  fix_icons (a ++ b) = a ++ fix_icons b ∧
  re_findall pattern (a ++ b) = re_findall pattern b.
Proof.
  intros Ha.
  assert (scan pattern 0 (a ++ b) = map Gap a ++ scan pattern 0 b) as Hs.
  { apply scan_gaps. intros P S -> HS. apply re_match_head.
    destruct S as [|c S]; [done|].
    assert (c ≠ "<"%char) as Hc by (intros ->; apply Ha; set_solver).
    change H2SVG with ("<"%char :: s "h2><svg").
    cbn [app strip_prefix].
    destruct (Ascii.eqb_spec "<" c) as [He|_]; [by symmetry in He|done]. }
  unfold fix_icons, re_sub, re_subn, re_findall. cbn [fst]. rewrite Hs. split.
  - by rewrite map_app, concat_app, map_emit_gap.
  - clear. induction a as [|c a IH]; [done|]. simpl. apply IH.
Qed.

Lemma text_without_lt_passes_witness :
  ("<"%char ∉ s "Plain text, then ") ∧
  fix_icons (s "Plain text, then " ++ icon 85) =
    s "Plain text, then " ++ fix_icons (icon 85) ∧
  re_findall pattern (s "Plain text, then " ++ icon 85) =
    re_findall pattern (icon 85).
Proof.
  assert ("<"%char ∉ s "Plain text, then ") as H
    by (apply (bool_decide_unpack _); by vm_compute).
  split; [exact H|].
  exact (text_without_lt_passes (s "Plain text, then ") (icon 85) H).
Defined.

(** ** The run *)

Lemma run_loop_lookup names w w' n :
  run_loop names w = Some w' →
  files w' !! n =
  if decide (n ∈ names) then fix_icons <$> files w !! n else files w !! n.
Proof.
  revert w. induction names as [|a names IH]; intros w; cbn [run_loop].
  - intros [= ->]. case_decide as Hin; [by apply elem_of_nil in Hin|done].
  - destruct (process_file a w) as [w1|] eqn:Hp; [|done].
    intros Hr. rewrite (IH _ Hr).
    apply process_file_files in Hp as [_ ->].
    destruct (decide (a = n)) as [->|Hne].
    + rewrite lookup_alter_eq.
      rewrite (decide_True (P := n ∈ n :: names)) by apply list_elem_of_here.
      case_decide; [|done].
      destruct (files w !! n) as [c|]; [|done]. simpl. by rewrite fix_icons_idem.
    + rewrite lookup_alter_ne by done.
      destruct (decide (n ∈ names)) as [Hin|Hout].
      * rewrite (decide_True (P := n ∈ a :: names)); [done|].
        by apply list_elem_of_further.
      * rewrite (decide_False (P := n ∈ a :: names)); [done|].
        rewrite not_elem_of_cons. by split.
Qed.

Lemma main_run_loop names w w' :
  main names w = Some w' →
  ∃ w0, run_loop names w = Some w0 ∧ files w' = files w0 ∧
        console w' = console w0 ++ ["Done!"%string] ∧ writes w' = writes w0.
Proof.
  unfold main. destruct (run_loop names w) as [w0|]; [|done].
  intros [= <-]. by exists w0.
Qed.


(** X6.  After a run every listed file holds the rewriting of the text it
    held before, however often it is listed, and every other file holds what
    it held before; no file appears or disappears. *)
Theorem run_rewrites_listed_files (names : list string) (w w' : world) :
  main names w = Some w' →
  ∀ n, files w' !! n =
       (if decide (n ∈ names) then fix_icons <$> files w !! n
        else files w !! n) ∧
       (is_Some (files w' !! n) ↔ is_Some (files w !! n)).
Proof.
  intros (w0 & Hr & -> & _)%main_run_loop n.
  rewrite (run_loop_lookup _ _ _ n Hr). split; [done|].
  case_decide; [|done]. by rewrite fmap_is_Some.
Qed.

Lemma run_rewrites_listed_files_witness :
  main ["a.html"%string] world0 = Some world1 ∧
  ∀ n, files world1 !! n =
       (if decide (n ∈ ["a.html"%string]) then fix_icons <$> files world0 !! n
        else files world0 !! n) ∧
       (is_Some (files world1 !! n) ↔ is_Some (files world0 !! n)).
Proof.
  assert (main ["a.html"%string] world0 = Some world1) as H by (by vm_compute).
  split; [exact H|].
  exact (run_rewrites_listed_files ["a.html"%string] world0 world1 H).
Defined.

Lemma process_file_console a w w1 :
  process_file a w = Some w1 →
  ∃ l, console w1 = console w ++ [l] ∧ line_of a l.
Proof.
  unfold process_file. destruct (files w !! a) as [original|]; [|done].
  case_decide as Hne; intros [= <-]; cbn [console]; eexists; (split; [done|]).
  - right. eexists. split; [|done]. by apply changed_iff_matches.
  - by left.
Qed.

(** X7.  A run adds to the console one line for each listed file, in the
    order of the listing, each either the line for no changes or the line
    for a positive number of icons, and then the last line. *)
Theorem run_prints_one_line_per_file (names : list string) (w w' : world) :
  main names w = Some w' →
  ∃ lines, console w' = console w ++ lines ++ ["Done!"%string] ∧
           Forall2 line_of names lines.
Proof.
  intros (w0 & Hr & _ & -> & _)%main_run_loop.
  assert (∃ lines, console w0 = console w ++ lines ∧ Forall2 line_of names lines)
    as (lines & -> & Hl).
  { clear w'. revert w Hr. induction names as [|a names IH]; intros w; simpl.
    - intros [= ->]. exists []. by rewrite app_nil_r.
    - destruct (process_file a w) as [w1|] eqn:Hp; [|done].
      intros (lines & -> & Hl)%IH.
      apply process_file_console in Hp as (l & -> & Hline).
      exists (l :: lines). split; [by rewrite <- (assoc_L (++))|by constructor]. }
  exists lines. by rewrite <- (assoc_L (++)).
Qed.

Lemma run_prints_one_line_per_file_witness :
  main ["a.html"%string] world0 = Some world1 ∧
  ∃ lines, console world1 = console world0 ++ lines ++ ["Done!"%string] ∧
           Forall2 line_of ["a.html"%string] lines.
Proof.
  assert (main ["a.html"%string] world0 = Some world1) as H by (by vm_compute).
  split; [exact H|].
  exact (run_prints_one_line_per_file ["a.html"%string] world0 world1 H).
Defined.

Lemma run_loop_writes names w w' :
  run_loop names w = Some w' →
  ∃ ws, writes w' = writes w ++ ws ∧ NoDup ws.*1 ∧
        (∀ n, n ∈ ws.*1 ↔ files w' !! n ≠ files w !! n) ∧
        (∀ n c, (n, c) ∈ ws → files w' !! n = Some c).
Proof.
  revert w. induction names as [|a names IH]; intros w; simpl.
  - intros [= ->]. exists []. rewrite app_nil_r. split; [done|].
    split; [constructor|]. split; [|by intros ?? ?%elem_of_nil].
    intros n. split; [by intros ?%elem_of_nil|done].
  - destruct (process_file a w) as [w1|] eqn:Hp; [|done]. intros Hr.
    destruct (IH _ Hr) as (ws & Hw & Hnd & Hiff & Hfin).
    unfold process_file in Hp.
    destruct (files w !! a) as [a0|] eqn:Ha0; [|done].
    case_decide as Hne; injection Hp as <-; cbn [files writes] in *.
    + pose proof (run_loop_lookup _ _ _ a Hr) as Hla. cbn [files] in Hla.
      assert (files w' !! a = Some (fix_icons a0)) as Hfa.
      { rewrite Hla, lookup_insert_eq. case_decide; [|done].
        simpl. by rewrite fix_icons_idem. }
      assert (a ∉ ws.*1) as Hout.
      { rewrite Hiff, lookup_insert_eq, Hfa. by intros H. }
      exists ((a, fix_icons a0) :: ws). rewrite Hw, <- (assoc_L (++)).
      split; [done|]. split; [by constructor|]. split.
      * intros n. rewrite fmap_cons, elem_of_cons. cbn [fst].
        destruct (decide (n = a)) as [->|Hna].
        -- rewrite Hfa, Ha0. split; [|by left]. intros _ [= He]. by apply Hne.
        -- rewrite Hiff, lookup_insert_ne by done. split; [|by right].
           by intros [?|?].
      * intros n c [[= -> ->]|Hin]%elem_of_cons; [done|by apply Hfin].
    + by exists ws.
Qed.

(** X8.  The [write_text] calls of a run are for exactly the files whose
    text the run changes, one call for each, and what a call stores is the
    text that the file holds at the end of the run. *)
Theorem run_writes_changed_files_once (names : list string) (w w' : world) :
  main names w = Some w' →
  ∃ ws, writes w' = writes w ++ ws ∧ NoDup ws.*1 ∧
        (∀ n, n ∈ ws.*1 ↔ files w' !! n ≠ files w !! n) ∧
        (∀ n c, (n, c) ∈ ws → files w' !! n = Some c).
Proof.
  intros (w0 & Hr & -> & _ & ->)%main_run_loop. by apply (run_loop_writes names).
Qed.

Lemma run_writes_changed_files_once_witness :
  main ["a.html"%string; "a.html"%string] world0 =
    Some (World (files world1)
                ["Fixed 1 complex icons in a.html"%string;
                 "No changes needed in a.html"%string; "Done!"%string]
                (writes world1)) ∧
  ∃ ws, writes world1 = writes world0 ++ ws ∧ NoDup ws.*1 ∧
        (∀ n, n ∈ ws.*1 ↔ files world1 !! n ≠ files world0 !! n) ∧
        (∀ n c, (n, c) ∈ ws → files world1 !! n = Some c).
Proof.
  assert (main ["a.html"%string; "a.html"%string] world0 =
            Some (World (files world1)
                        ["Fixed 1 complex icons in a.html"%string;
                         "No changes needed in a.html"%string; "Done!"%string]
                        (writes world1))) as H by (by vm_compute).
  split; [exact H|].
  exact (run_writes_changed_files_once _ world0 _ H).
Defined.



(** ** Icons in the form of the pattern *)

Lemma run_length_exact c w t : c ∉ w → run_length c (w ++ c :: t) = length w.
Proof.
  induction w as [|a w IH]; simpl.
  - intros _. by rewrite Ascii.eqb_refl.
  - intros [Hne Hw]%not_elem_of_cons.
    destruct (Ascii.eqb_spec a c) as [->|_]; [done|]. by rewrite IH.
Qed.

Lemma backtrack_top {A} (k : str → option A) t lo n r :
  lo ≤ n → k (drop n t) = Some r → backtrack k t lo n = Some r.
Proof.
  intros Hlo Hk. destruct n as [|n]; simpl.
  - destruct (Nat.ltb_spec 0 lo); [lia|]. by rewrite Hk.
  - destruct (Nat.ltb_spec (S n) lo); [lia|]. by rewrite Hk.
Qed.

Lemma backtrack_lower {A} (k : str → option A) t lo n j :
  lo ≤ j ≤ n → (∀ j', j < j' ≤ n → k (drop j' t) = None) →
  backtrack k t lo n = backtrack k t lo j.
Proof.
  intros Hj Hnone. induction n as [|n IH].
  - by replace j with 0 by lia.
  - destruct (decide (j = S n)) as [->|Hne]; [done|].
    rewrite <- IH by (try lia; intros; apply Hnone; lia).
    simpl. destruct (Nat.ltb_spec (S n) lo); [lia|].
    by rewrite Hnone by lia.
Qed.

(** After the opening of the [d] attribute that begins the path data, no
    later opening of a [d] attribute lies in the same run of the tag. *)
Lemma later_deq_fails K D rest t5 :
  K ≠ [] → ">"%char ∉ K → dq ∉ D → ¬ s "d=" `suffix_of` D →
  DEQ ++ D ++ CLOSE ++ rest ≠ K ++ DEQ ++ t5.
Proof.
  intros HK0 HK HD Hsuf He.
  destruct K as [|k0 [|k1 [|k2 K]]]; [done|..];
    try (unfold DEQ, s in He; simplify_eq/=; fail).
  change (DEQ ++ D ++ CLOSE ++ rest)
    with ("d"%char :: "="%char :: dq :: (D ++ CLOSE ++ rest)) in He.
  cbn [app] in He. injection He as H0 H1 H2 He. subst k0 k1 k2.
  assert ((K ++ s "d=") ++ dq :: t5 = D ++ dq :: (s " /></svg>" ++ rest)) as He'.
  { rewrite <- (assoc_L (++)). symmetry. exact He. }
  clear He. rename He' into He.
  apply split_at in He as [(x2 & -> & _)|(a' & Ha & He)].
  { apply HD. set_solver. }
  destruct a' as [|x a'].
  { rewrite app_nil_r in Ha. apply Hsuf. exists K. done. }
  injection He as -> He.
  assert (∃ a3, a' = a3 ++ s "d=" ∧ ">"%char ∉ a3) as (a3 & -> & Ha3).
  { assert (2 ≤ length a') as Hlen.
    { destruct a' as [|x [|y a2]]; [| |simpl; lia].
      - change (K ++ s "d=") with (K ++ ["d"%char] ++ ["="%char]) in Ha.
        rewrite (assoc_L (++) K) in Ha.
        apply app_inj_2 in Ha as [_ Ha]; [by simplify_eq/=|done].
      - apply app_inj_2 in Ha as [_ Ha]; [by simplify_eq/=|done]. }
    rewrite <- (take_drop (length a' - 2) a') in Ha |- *.
    change (D ++ dq :: take (length a' - 2) a' ++ drop (length a' - 2) a')
      with (D ++ (dq :: take (length a' - 2) a') ++ drop (length a' - 2) a')
      in Ha.
    rewrite (assoc_L (++) D) in Ha.
    apply app_inj_2 in Ha as [HK' <-]; [|rewrite length_drop; simpl; lia].
    exists (take (length a' - 2) a'). split; [done|].
    intros Hin. apply HK. rewrite HK'. set_solver. }
  revert He. rewrite <- (assoc_L (++)).
  apply not_eq_sym. by apply close_tail_vs_d.
Qed.

Lemma re_match_icon X Y D rest :
  ">"%char ∉ X → ">"%char ∉ Y → dq ∉ D → 80 ≤ length D →
  ¬ s "d=" `suffix_of` D →
  re_match pattern (H2SVG ++ X ++ GTPATH ++ Y ++ DEQ ++ D ++ CLOSE ++ rest) =
  Some ([H2SVG ++ X ++ GTPATH ++ Y ++ DEQ; D; CLOSE], rest).
Proof.
  intros HX HY HD Hlen Hsuf.
  set (T3 := D ++ CLOSE ++ rest).
  set (T2 := Y ++ DEQ ++ T3).
  set (T1 := X ++ GTPATH ++ T2).
  unfold re_match, pattern. cbn [m_groups m_nodes].
  rewrite strip_prefix_app.
  assert (run_length ">" T1 = length X) as ->.
  { subst T1. change (GTPATH ++ T2) with (">"%char :: (s "<path" ++ T2)).
    by apply run_length_exact. }
  apply backtrack_top; [lia|].
  subst T1. rewrite drop_app_length, strip_prefix_app.
  rewrite (backtrack_lower _ T2 0 _ (length Y)).
  2:{ split; [lia|]. subst T2. by apply run_length_app. }
  2:{ intros j' Hj'.
      destruct (strip_prefix DEQ (drop j' T2)) as [t5|] eqn:Hs; [exfalso|done].
      apply strip_prefix_Some in Hs.
      assert (T2 = take j' T2 ++ DEQ ++ t5) as HT2.
      { by rewrite <- Hs, take_drop. }
      assert (">"%char ∉ take j' T2) as Hgt by (apply run_length_take; lia).
      assert (length (take j' T2) = j') as Hlj.
      { rewrite length_take. pose proof (run_length_le ">" T2). lia. }
      unfold T2 in HT2 at 1.
      apply app_eq_inv in HT2 as [(K & HY' & HK)|(K & HK & He)].
      - apply (f_equal length) in HY'. rewrite length_app in HY'. lia.
      - revert He. apply later_deq_fails; [| |done|done].
        + intros ->. rewrite app_nil_r in HK. rewrite HK in Hlj. lia.
        + rewrite HK in Hgt. rewrite not_elem_of_app in Hgt. tauto. }
  apply backtrack_top; [lia|].
  subst T2. rewrite drop_app_length, strip_prefix_app.
  assert (run_length dq T3 = length D) as ->.
  { subst T3. change (CLOSE ++ rest) with (dq :: (s " /></svg>" ++ rest)).
    by apply run_length_exact. }
  apply backtrack_top; [lia|].
  subst T3. rewrite drop_app_length, strip_prefix_app.
  f_equal. f_equal. f_equal; [|f_equal; [|f_equal]].
  - rewrite !(assoc_L (++) _ _ (D ++ _)). apply take_app_length'.
    rewrite !length_app. lia.
  - apply take_app_length'. rewrite !length_app. lia.
  - apply take_app_length'. rewrite !length_app. lia.
Qed.

(** X10.  An icon in the form of the pattern at the head of a text, with at
    least 80 characters of path data that do not end in [d=], is matched with
    its own tag text, path data and closing sequence as the three groups; it
    is rewritten with the checkmark, and what follows it is rewritten as it
    would be on its own. *)
Theorem icon_at_head_rewritten (X Y D rest : str) :
  ">"%char ∉ X → ">"%char ∉ Y → dq ∉ D → 80 ≤ length D →
  ¬ s "d=" `suffix_of` D →
  re_findall pattern (H2SVG ++ X ++ GTPATH ++ Y ++ DEQ ++ D ++ CLOSE ++ rest) =
    [H2SVG ++ X ++ GTPATH ++ Y ++ DEQ; D; CLOSE] :: re_findall pattern rest ∧
  fix_icons (H2SVG ++ X ++ GTPATH ++ Y ++ DEQ ++ D ++ CLOSE ++ rest) =
    H2SVG ++ X ++ GTPATH ++ Y ++ DEQ ++ CHECKMARK ++ CLOSE ++ fix_icons rest.
Proof.
  intros HX HY HD Hlen Hsuf.
  pose proof (re_match_icon X Y D rest HX HY HD Hlen Hsuf) as Hm.
  split; [by apply findall_hit|].
  pose proof (fix_icons_hit (H2SVG ++ X ++ GTPATH ++ Y ++ DEQ) D rest) as Hf.
  rewrite <- !(assoc_L (++)) in Hf. by apply Hf.
Qed.

Lemma icon_at_head_rewritten_witness :
  (">"%char ∉ s " x='1'") ∧ (">"%char ∉ s " fill='none' ") ∧
  (dq ∉ replicate 85 "A"%char) ∧ 80 ≤ length (replicate 85 "A"%char) ∧
  (¬ s "d=" `suffix_of` replicate 85 "A"%char) ∧
  re_findall pattern
    (H2SVG ++ s " x='1'" ++ GTPATH ++ s " fill='none' " ++ DEQ ++
     replicate 85 "A"%char ++ CLOSE ++ icon 90) =
    [H2SVG ++ s " x='1'" ++ GTPATH ++ s " fill='none' " ++ DEQ;
     replicate 85 "A"%char; CLOSE] :: re_findall pattern (icon 90) ∧
  fix_icons
    (H2SVG ++ s " x='1'" ++ GTPATH ++ s " fill='none' " ++ DEQ ++
     replicate 85 "A"%char ++ CLOSE ++ icon 90) =
    H2SVG ++ s " x='1'" ++ GTPATH ++ s " fill='none' " ++ DEQ ++
    CHECKMARK ++ CLOSE ++ fix_icons (icon 90).
Proof.
  assert (">"%char ∉ s " x='1'") as H1
    by (apply (bool_decide_unpack _); by vm_compute).
  assert (">"%char ∉ s " fill='none' ") as H2
    by (apply (bool_decide_unpack _); by vm_compute).
  assert (dq ∉ replicate 85 "A"%char) as H3
    by (apply (bool_decide_unpack _); by vm_compute).
  assert (80 ≤ length (replicate 85 "A"%char)) as H4
    by (rewrite length_replicate; lia).
  assert (¬ s "d=" `suffix_of` replicate 85 "A"%char) as H5
    by (apply (bool_decide_unpack _); by vm_compute).
  repeat (split; [assumption|]).
  exact (icon_at_head_rewritten _ _ _ (icon 90) H1 H2 H3 H4 H5).
Defined.

Lemma no_close_before_data B D2 u D0 Z :
  ">"%char ∉ B → dq ∉ D2 → ">"%char ∉ D0 →
  D2 ++ CLOSE ++ u ≠ B ++ DEQ ++ D0 ++ CLOSE ++ Z.
Proof.
  intros HB HD HD0 He.
  change (CLOSE ++ u) with (dq :: (s " /></svg>" ++ u)) in He.
  destruct (decide (dq ∈ B)) as [Hin|Hout].
  - apply list_elem_of_split_l in Hin as (A & B' & -> & HA).
    rewrite <- (assoc_L (++) A) in He. cbn [app] in He.
    apply not_elem_of_app_cons_inv_l in He as (_ & _ & He); [|done|done].
    revert He. apply close_tail_vs_d.
    rewrite not_elem_of_app, not_elem_of_cons in HB. tauto.
  - change DEQ with (s "d=" ++ [dq]) in He.
    rewrite <- (assoc_L (++) (s "d=")), (assoc_L (++) B) in He.
    cbn [app] in He.
    apply not_elem_of_app_cons_inv_l in He as (_ & _ & He); [| |done].
    + change (CLOSE ++ Z) with (dq :: (s " /></svg>" ++ Z)) in He.
      unfold s in He.
      destruct D0 as [|d0 [|d1 [|d2 D0]]]; simplify_eq/=.
      apply HD0. set_solver.
    + rewrite not_elem_of_app. split; [done|].
      apply (bool_decide_unpack _). by vm_compute.
Qed.

(** X11.  An icon in the form of the pattern whose path data has fewer than
    80 characters, none of them [>], and does not end in [d=], is left as it
    is, and what follows it is rewritten as it would be on its own. *)
Theorem short_icon_left_alone (X Y D rest : str) :
  ">"%char ∉ X → ">"%char ∉ Y → dq ∉ D → ">"%char ∉ D →
  length D < 80 → ¬ s "d=" `suffix_of` D →
  fix_icons ((H2SVG ++ X ++ GTPATH ++ Y ++ DEQ ++ D ++ CLOSE) ++ rest) =
    (H2SVG ++ X ++ GTPATH ++ Y ++ DEQ ++ D ++ CLOSE) ++ fix_icons rest ∧
  re_findall pattern ((H2SVG ++ X ++ GTPATH ++ Y ++ DEQ ++ D ++ CLOSE) ++ rest) =
    re_findall pattern rest.
Proof.
  intros HX HY HD HD' Hlen Hsuf.
  set (I := H2SVG ++ X ++ GTPATH ++ Y ++ DEQ ++ D ++ CLOSE).
  assert (scan pattern 0 (I ++ rest) = map Gap I ++ scan pattern 0 rest) as Hs.
  { apply scan_gaps. intros P S HI HS. destruct P as [|p P].
    - cbn [app] in HI. subst S I.
      destruct (re_match pattern _) as [[m rest']|] eqn:Hm; [exfalso|done].
      apply re_match_sound in Hm
        as (g1 & D1 & _ & He & (X' & Y' & -> & HX' & HY') & [HD1 Hlen1]).
      rewrite <- !(assoc_L (++)) in He. apply app_inv_head in He.
      change GTPATH with (">"%char :: s "<path") in He. cbn [app] in He.
      apply not_elem_of_app_cons_inv_l in He as (-> & _ & He); [|done|done].
      apply app_inv_head in He.
      assert (D1 ++ CLOSE ++ rest' ≠ D ++ CLOSE ++ rest) as Hsame.
      { change CLOSE with (dq :: s " /></svg>"). cbn [app]. intros Hq.
        apply not_elem_of_app_cons_inv_l in Hq as (-> & _ & _); [lia|done|done]. }
      apply app_eq_inv in He as [(K & -> & He)|(K & -> & He)].
      + rewrite not_elem_of_app in HY. destruct HY as [_ HK].
        destruct K as [|k0 [|k1 [|k2 K]]].
        * cbn [app] in He. apply app_inv_head in He. done.
        * unfold DEQ, s in He. simplify_eq/=.
        * unfold DEQ, s in He. simplify_eq/=.
        * change (DEQ ++ D1 ++ CLOSE ++ rest')
            with ("d"%char :: "="%char :: dq :: (D1 ++ CLOSE ++ rest')) in He.
          cbn [app] in He. injection He as _ _ _ He. revert He.
          apply no_close_before_data; [|done|done].
          rewrite !not_elem_of_cons in HK. tauto.
      + destruct K as [|k0 K].
        * cbn [app] in He. apply app_inv_head in He. done.
        * revert He. apply later_deq_fails; [done| |done|done].
          rewrite not_elem_of_app in HY'. tauto.
    - apply re_match_head.
      destruct (strip_prefix H2SVG (S ++ rest)) as [T|] eqn:Hst; [exfalso|done].
      apply strip_prefix_Some in Hst. subst I. symmetry in HI.
      destruct (tail_start (p :: P) S X Y D rest T) as (D1 & D2 & -> & ->);
        [done..|].
      rewrite not_elem_of_app in HD'. destruct HD' as [_ HD2].
      unfold H2SVG, CLOSE, s in Hst.
      destruct D2 as [|x0 [|x1 [|x2 [|x3 D2]]]]; simplify_eq/=.
      apply HD2. set_solver. }
  unfold fix_icons, re_sub, re_subn, re_findall. cbn [fst]. rewrite Hs. split.
  - by rewrite map_app, concat_app, map_emit_gap.
  - clear. induction I as [|c I IH]; [done|]. simpl. apply IH.
Qed.

Lemma short_icon_left_alone_witness :
  (">"%char ∉ s " x='1'") ∧ (">"%char ∉ s " ") ∧
  (dq ∉ replicate 79 "A"%char) ∧ (">"%char ∉ replicate 79 "A"%char) ∧
  length (replicate 79 "A"%char) < 80 ∧
  (¬ s "d=" `suffix_of` replicate 79 "A"%char) ∧
  fix_icons ((H2SVG ++ s " x='1'" ++ GTPATH ++ s " " ++ DEQ ++
              replicate 79 "A"%char ++ CLOSE) ++ icon 90) =
    (H2SVG ++ s " x='1'" ++ GTPATH ++ s " " ++ DEQ ++
     replicate 79 "A"%char ++ CLOSE) ++ fix_icons (icon 90) ∧
  re_findall pattern ((H2SVG ++ s " x='1'" ++ GTPATH ++ s " " ++ DEQ ++
                       replicate 79 "A"%char ++ CLOSE) ++ icon 90) =
    re_findall pattern (icon 90).
Proof.
  assert (">"%char ∉ s " x='1'") as H1
    by (apply (bool_decide_unpack _); by vm_compute).
  assert (">"%char ∉ s " ") as H2
    by (apply (bool_decide_unpack _); by vm_compute).
  assert (dq ∉ replicate 79 "A"%char) as H3
    by (apply (bool_decide_unpack _); by vm_compute).
  assert (">"%char ∉ replicate 79 "A"%char) as H4
    by (apply (bool_decide_unpack _); by vm_compute).
  assert (length (replicate 79 "A"%char) < 80) as H5
    by (rewrite length_replicate; lia).
  assert (¬ s "d=" `suffix_of` replicate 79 "A"%char) as H6
    by (apply (bool_decide_unpack _); by vm_compute).
  repeat (split; [assumption|]).
  exact (short_icon_left_alone _ _ _ (icon 90) H1 H2 H3 H4 H5 H6).
Defined.

(** ** The callback *)


